(** * word-flip-game: the deck manager and the dictionary loader of [src/App.jsx]

    A shallow embedding of the pure and stateful logic of [App.jsx]:
    the [mulberry32] generator, the Fisher-Yates [shuffle], the seed
    computation, the deck ([resetDeck], [dealNext]), [loadDict], and the
    handlers of the component [App].

    Conventions.
    - A JavaScript integer is a [Z]; the 32-bit conversions are written out.
    - A JavaScript string is the list of its UTF-16 code units.
    - A closure with private mutable state (the generator returned by
      [mulberry32]) is its state together with a step function.
    - Arrays live in a store, so that aliasing and in-place updates are
      visible. *)

From Stdlib Require Import ZArith NArith QArith Lia Ascii String DecimalString.
From stdpp Require Import base option list gmap sets.

#[local] Set Warnings "-clear-no-such-hyp".

Local Open Scope Z_scope.

(** ** 32-bit integer operations *)

Module Int32.

(** [ToUint32]: the value modulo 2^32. *)
Definition ToUint32 (z : Z) : Z := z mod 2 ^ 32.

(** [ToInt32]: the value modulo 2^32, read as a signed 32-bit integer. *)
Definition ToInt32 (z : Z) : Z := (z + 2 ^ 31) mod 2 ^ 32 - 2 ^ 31.

(** [a | b] *)
Definition or (a b : Z) : Z := ToInt32 (Z.lor (ToInt32 a) (ToInt32 b)).

(** [a ^ b] *)
Definition xor (a b : Z) : Z := ToInt32 (Z.lxor (ToInt32 a) (ToInt32 b)).

(** [a >>> k], for a shift count [0 <= k < 32]. *)
Definition ushr (a k : Z) : Z := Z.shiftr (ToUint32 a) k.

(** [Math.imul(a, b)] *)
Definition imul (a b : Z) : Z := ToInt32 (ToInt32 a * ToInt32 b).

End Int32.

(** ** Numbers produced by a random source

    A finite non-negative binary64 value is [mant / 2^scale] with
    [mant < 2^53] and [scale <= 1074].  Dividing a 32-bit unsigned integer
    by [4294967296 = 2^32] is exact in binary64, so the result of
    [mulberry32]'s generator is [Num u 32]. *)

Record number := Num { mant : N; scale : N }.

Definition is_double (x : number) : Prop :=
  (mant x < 2 ^ 53)%N ∧ (scale x ≤ 1074)%N.

(** The rational value of a number. *)
Definition to_Q (x : number) : Q :=
  (inject_Z (Z.of_N (mant x)) / inject_Z (2 ^ Z.of_N (scale x)))%Q.

(** [0 <= x < 1] *)
Definition in_unit_interval (x : number) : Prop :=
  (0 <= to_Q x)%Q ∧ (to_Q x < 1)%Q.

(** Rounding of a non-negative integer to 53 significant bits, to nearest,
    ties to even: the significand of a binary64 product. *)
Definition round53 (p : N) : N :=
  let d := (N.size p - 53)%N in
  if (d =? 0)%N then p
  else
    let q := N.shiftr p d in
    let r := (p mod 2 ^ d)%N in
    let half := (2 ^ (d - 1))%N in
    let q' :=
      if (r <? half)%N then q
      else if (half <? r)%N then (q + 1)%N
      else if N.even q then q else (q + 1)%N in
    N.shiftl q' d.

(** [x * n] for an integer [n] below 2^53: the exact product
    [mant * n / 2^scale] rounded to binary64.  The product is at least [x]
    or zero and below 2^106, so it neither underflows nor overflows. *)
Definition mul_int (x : number) (n : N) : number :=
  Num (round53 (mant x * n)) (scale x).

(** [Math.floor(x)] *)
Definition Math_floor (x : number) : N := N.shiftr (mant x) (scale x).

(** [x + y] for two numbers that are integers: the exact sum rounded to
    binary64.  A sum below 2^53 in absolute value is a number as it is;
    from there on every second integer is one, then every fourth, and so
    on.  (The sum of two numbers is below 2^1025; one that rounds to 2^1024
    or more is the infinity, which is no integer and is not modelled.) *)
Definition add_int (x y : Z) : Z :=
  Z.sgn (x + y) * Z.of_N (round53 (Z.abs_N (x + y))).

(** ** mulberry32

    [mulberry32(seed)] returns a closure over the variable [a]; the closure
    is modelled by the value of [a] and [mulberry32_next], which runs the
    body once and returns the result with the new value of [a]. *)

Definition mulberry32 (seed : Z) : Z := Int32.ushr seed 0.

Definition mulberry32_next (a : Z) : number * Z :=
  let a := Int32.or a 0 in
  let a := Int32.or (a + 0x6d2b79f5) 0 in
  let t := Int32.imul (Int32.xor a (Int32.ushr a 15)) (Int32.or 1 a) in
  let t := Int32.xor (t + Int32.imul (Int32.xor t (Int32.ushr t 7)) (Int32.or 61 t)) t in
  (Num (Z.to_N (Int32.ushr (Int32.xor t (Int32.ushr t 14)) 0)) 32, a).

(** ** Arrays and the store

    An array is the list of its elements; a hole and an element that is
    [undefined] read the same, so both are [undefined].  Arrays are objects:
    a variable holds a location of the store. *)

(** A location of the store. *)
Abbreviation loc := nat (only parsing).

Section Shuffle.
Context {V : Type} (undefined : V).

Definition heap := list (list V).

(** The array at a location (the empty array where the store has none). *)
Definition load (σ : heap) (l : loc) : list V := default [] (σ !! l).

Definition store (σ : heap) (l : loc) (a : list V) : heap := <[l := a]> σ.

(** A new array is put at the first free location. *)
Definition alloc (σ : heap) (a : list V) : loc * heap := (length σ, σ ++ [a]).

(** [a[i]]: [undefined] past the end. *)
Definition aget (a : list V) (i : nat) : V := default undefined (a !! i).

(** [a[i] = v]: past the end the array grows, the gap reading [undefined]
    (for an index below the greatest length of an array). *)
Definition aset (a : list V) (i : nat) (v : V) : list V :=
  if decide (i < length a)%nat then <[i := v]> a
  else a ++ replicate (i - length a) undefined ++ [v].

(** ** shuffle

    A random source is a closure [rnd] with private state of type [G]:
    [rnd g] is the number returned and the state after the call. *)

Context {G : Type} (rnd : G → number * G).

(** [Math.floor(x * (i + 1))] *)
Definition pick (x : number) (i : nat) : nat :=
  N.to_nat (Math_floor (mul_int x (N.of_nat (i + 1)))).

(** [[a[i], a[j]] = [a[j], a[i]]]: both reads, then the write of [a[i]],
    then the write of [a[j]]. *)
Definition swap (a : loc) (i j : nat) (σ : heap) : heap :=
  let vj := aget (load σ a) j in
  let vi := aget (load σ a) i in
  let σ := store σ a (aset (load σ a) i vj) in
  store σ a (aset (load σ a) j vi).

(** [for (let i = a.length - 1; i > 0; i--)], entered with the value of [i]. *)
Fixpoint shuffle_loop (a : loc) (i : nat) (g : G) (σ : heap) : G * heap :=
  match i with
  | O => (g, σ)
  | S i' =>
      let '(x, g) := rnd g in
      let j := pick x i in
      shuffle_loop a i' g (swap a i j σ)
  end.

(** [shuffle(arr, rnd)]: the location of the result, the state of the
    random source after the call, and the store after the call. *)
Definition shuffle (arr : loc) (g : G) (σ : heap) : loc * G * heap :=
  let '(a, σ) := alloc σ (load σ arr) in
  let '(g, σ) := shuffle_loop a (length (load σ a) - 1) g σ in
  (a, g, σ).

(** [shuffle] called on an array with elements [l] that nothing else
    uses: the elements of the result. *)
Definition shuffle_list (l : list V) (g : G) : list V * G :=
  let '(a, g, σ) := shuffle 0%nat g [l] in (load σ a, g).

(** The loop seen on the elements of the array alone. *)
Definition swap_array (l : list V) (i j : nat) : list V :=
  aset (aset l i (aget l j)) j (aget l i).

Fixpoint shuffle_loop_array (i : nat) (g : G) (l : list V) : G * list V :=
  match i with
  | O => (g, l)
  | S i' =>
      let '(x, g) := rnd g in
      shuffle_loop_array i' g (swap_array l i (pick x i))
  end.

(** [n] successive calls of the random source. *)
Fixpoint draws (n : nat) (g : G) : list number * G :=
  match n with
  | O => ([], g)
  | S n' =>
      let '(x, g) := rnd g in
      let '(xs, g) := draws n' g in
      (x :: xs, g)
  end.

(** *** Fisher-Yates, as the specification words it

    "iterating from the last index down to 1, swapping each element with a
    random earlier-or-equal index", one number of the random source per
    position.  On lists, with no store and no growth. *)

Definition swap_list (l : list V) (i j : nat) : list V :=
  match l !! i, l !! j with
  | Some vi, Some vj => <[j := vi]> (<[i := vj]> l)
  | _, _ => l
  end.

Fixpoint fisher_yates (i : nat) (xs : list number) (l : list V) : list V :=
  match i, xs with
  | S i', x :: xs => fisher_yates i' xs (swap_list l i (pick x i))
  | _, _ => l
  end.

End Shuffle.

(** ** Strings and values *)

(** A string is the list of its UTF-16 code units. *)
Definition jsstring := list N.

(** The code units of an ASCII literal. *)
Definition lit (s : string) : jsstring := N_of_ascii <$> list_ascii_of_string s.

(** The decimal text of an integer, as a template literal renders it. *)
Definition Number_toString (z : Z) : jsstring :=
  lit (NilZero.string_of_int (Z.to_int z)).

(** The values the deck holds: the elements of the queue, the members of
    the used set, the variable [next] and the displayed word. *)
Inductive value := Null | Undefined | Str (s : jsstring).

Global Instance value_eq_dec : EqDecision value.
Proof. solve_decision. Defined.

Global Instance value_countable : Countable value.
Proof.
  refine (inj_countable'
    (λ v, match v with Null => inl false | Undefined => inl true | Str s => inr s end)
    (λ x, match x with inl false => Null | inl true => Undefined | inr s => Str s end) _).
  by intros [].
Defined.

Global Instance Str_inj : Inj (=) (=) Str.
Proof. by intros s1 s2 [= ->]. Qed.

(** A value counts as true in [if (next)] when it is a non-empty string. *)
Definition truthy (v : value) : bool :=
  match v with
  | Str (_ :: _) => true
  | _ => false
  end.

(** ** The seed and the colour *)

(** What one call of [computeSeed] reads from its surroundings: the date
    and one result of [Math.random()]. *)
Record clock := Clock { year : Z; month : Z; date : Z; random : number }.

(** The loop shared by [computeSeed] and [hashStringToInt]:
    [h ^= s.charCodeAt(i); h = Math.imul(h, 16777619)]. *)
Fixpoint fnv1a (h : Z) (s : jsstring) : Z :=
  match s with
  | [] => h
  | c :: s => fnv1a (Int32.imul (Int32.xor h (Z.of_N c)) 16777619) s
  end.

Definition computeSeed (d : clock) : Z :=
  let key := Number_toString (year d) ++ lit "-" ++ Number_toString (month d + 1)
             ++ lit "-" ++ Number_toString (date d) in
  let h := fnv1a 2166136261 key in
  let noise := Z.of_N (Math_floor (mul_int (random d) 1000000000)) in
  Int32.ushr (Int32.xor h noise) 0.

Definition hashStringToInt (s : jsstring) : Z :=
  Int32.ushr (fnv1a 2166136261 s) 0.

Definition WORD_COLORS : list jsstring :=
  lit <$> ["#FF6B6B"; "#FF8A00"; "#FFB703"; "#43AA8B"; "#00B4D8";
           "#3A86FF"; "#8338EC"; "#FF4D9D"; "#F72585"; "#2A9D8F"]%string.

(** [WORD_COLORS[(hashStringToInt(word) + salt) % WORD_COLORS.length]],
    for a [salt] that is an integer.  The sum is one of numbers; [%] is
    exact, it takes the sign of the dividend, and an index outside the
    table reads [undefined]. *)
Definition pickColor (word : jsstring) (salt : Z) : value :=
  let idx := Z.rem (add_int (hashStringToInt word) salt)
               (Z.of_nat (length WORD_COLORS)) in
  if (idx <? 0) then Undefined
  else from_option Str Undefined (WORD_COLORS !! Z.to_nat idx).

(** ** The deck *)

(** [usedRef.current], [queueRef.current], the displayed [word] and
    [wordColor]; [tick] counts the calls of [computeSeed] made so far, each
    of which reads the surroundings anew. *)
Record deck := Deck {
  used : gset value;
  queue : list value;
  word : value;
  wordColor : value;
  tick : nat
}.

Section Deck.
(** The surroundings, the loaded word list and the counters of the
    component, as the functions below see them. *)
Context (env : nat → clock) (words : list jsstring) (flipKey correct wrong : Z).

Definition resetDeck (st : deck) : deck :=
  let rnd := mulberry32 (computeSeed (env (tick st))) in
  let '(q, _) := shuffle_list Undefined mulberry32_next (Str <$> words) rnd in
  {| used := ∅; queue := q; word := word st; wordColor := wordColor st;
     tick := S (tick st) |}.

(** The [while] loop of [dealNext]: the value of [next] and what is left
    of the queue. *)
Fixpoint pop_unused (used : gset value) (queue : list value) : value * list value :=
  match queue with
  | [] => (Null, [])
  | w :: queue => if decide (w ∈ used) then pop_unused used queue else (w, queue)
  end.

(** [dealNext(saltOverride)]; [fuel] bounds the depth of the calls of
    [dealNext], and [None] is a call that needs more.  [saltOverride] is
    [Some] for a number.  [if (next)] holds for a non-empty string.  The
    counters are those of one rendering; they bear on the colour only. *)
Fixpoint dealNext (fuel : nat) (saltOverride : option Z) (st : deck) : option deck :=
  match fuel with
  | O => None
  | S fuel =>
      if decide (words = []) then Some st
      else
        let st := if decide (queue st = []) then resetDeck st else st in
        let '(next, q) := pop_unused (used st) (queue st) in
        let salt := from_option id (flipKey + correct * 3 + wrong * 7) saltOverride in
        match next with
        | Str (c :: s) =>
            Some {| used := {[ next ]} ∪ used st; queue := q; word := next;
                    wordColor := pickColor (c :: s) salt; tick := tick st |}
        | _ =>
            dealNext fuel (Some salt)
              (resetDeck {| used := used st; queue := q; word := word st;
                            wordColor := wordColor st; tick := tick st |})
        end
  end.

(** The queue that [resetDeck] makes when [computeSeed] has been called
    [n] times before. *)
Definition new_queue (n : nat) : list value :=
  (shuffle_list Undefined mulberry32_next (Str <$> words)
     (mulberry32 (computeSeed (env n)))).1.

(** The values that successive runs of the [while] loop find in a queue,
    each put into the used set when found. *)
Fixpoint cycle (used : gset value) (queue : list value) : list value :=
  match queue with
  | [] => []
  | w :: queue =>
      if decide (w ∈ used) then cycle used queue
      else w :: cycle ({[ w ]} ∪ used) queue
  end.

(** Successive calls of [dealNext], one per entry of [salts] (its
    argument), with the word displayed after each. *)
Fixpoint deals (fuel : nat) (salts : list (option Z)) (st : deck)
  : option (list value * deck) :=
  match salts with
  | [] => Some ([], st)
  | salt :: salts =>
      st ← dealNext fuel salt st;
      '(ws, st') ← deals fuel salts st;
      Some (word st :: ws, st')
  end.

End Deck.

(** ** The dictionary loader *)

Module Dict.

#[local] Set Warnings "-register-all".

(** A parsed JSON document.  A number carries the text that [String]
    gives it; the fields of an object are in the order of the document. *)
Inductive json :=
  | JNull
  | JBool (b : bool)
  | JNumber (text : jsstring)
  | JString (s : jsstring)
  | JArray (elements : list json)
  | JObject (fields : list (jsstring * json)).

(** What the network answers to a request: [fetch] rejects with a
    [TypeError], or resolves to a response. [body] is what [res.json()]
    makes of the body: the document, or the message of the [SyntaxError]. *)
Record response := Response { status : Z; body : jsstring + json }.

Definition network := jsstring → jsstring + response.

(** [res.ok]: the status is in the range 200-299. *)
Definition ok (res : response) : bool :=
  (200 <=? status res) && (status res <=? 299).

Inductive exn :=
  | Error (message : jsstring)
  | TypeError (message : jsstring)
  | SyntaxError (message : jsstring).

Definition message (e : exn) : jsstring :=
  match e with Error m | TypeError m | SyntaxError m => m end.

(** What a run does that can be seen from outside: the requests sent and
    the bodies parsed. *)
Inductive event :=
  | Fetched (url : jsstring)
  | Parsed.

(** A computation that logs events and returns or throws. *)
Definition M (A : Type) : Type := list event → list event * (exn + A).

Definition ret {A} (x : A) : M A := λ log, (log, inr x).
Definition throw {A} (e : exn) : M A := λ log, (log, inl e).
Definition bind {A B} (m : M A) (k : A → M B) : M B :=
  λ log, match m log with
         | (log, inl e) => (log, inl e)
         | (log, inr x) => k x log
         end.
Definition emit (ev : event) : M unit := λ log, (log ++ [ev], inr tt).

Notation "x <- m ;; k" := (bind m (λ x, k))
  (at level 100, m at next level, right associativity).

(** [await fetch(url, { cache: "no-store" })] *)
Definition fetch (net : network) (url : jsstring) : M response :=
  _ <- emit (Fetched url);;
  match net url with
  | inl m => throw (TypeError m)
  | inr res => ret res
  end.

(** [await res.json()] *)
Definition res_json (res : response) : M json :=
  _ <- emit Parsed;;
  match body res with
  | inl m => throw (SyntaxError m)
  | inr j => ret j
  end.

(** [json?.key]: [None] is [undefined].  Of the fields of an object with
    one key the last stands; a value that is no object has neither a
    [name] nor a [words]. *)
Definition prop (key : jsstring) (j : json) : option json :=
  match j with
  | JObject fields => snd <$> last (filter (λ f, fst f = key) fields)
  | _ => None
  end.

Definition join (sep : jsstring) (l : list jsstring) : jsstring :=
  match l with
  | [] => []
  | s :: l => s ++ concat ((λ t, sep ++ t) <$> l)
  end.

(** The message of the [TypeError] of a conversion that fails; the text
    is the engine's (this is V8's). *)
Definition cannot_convert : jsstring :=
  lit "Cannot convert object to primitive value".

(** [String(w)].  An array is its elements joined by commas, [null] among
    them the empty string.  An object is made a primitive value by its
    [toString] and then its [valueOf]: a parsed object inherits both, and
    an own field of either name is a JSON value, which cannot be called.
    Without an own [toString] the inherited one answers; with one, neither
    an own [valueOf] nor the inherited one (which returns the object)
    gives a primitive value, and the conversion throws a [TypeError]. *)
Fixpoint String_ (w : json) : exn + jsstring :=
  match w with
  | JNull => inr (lit "null")
  | JBool true => inr (lit "true")
  | JBool false => inr (lit "false")
  | JNumber text => inr text
  | JString s => inr s
  | JArray l =>
      sum_map id (join (lit ","))
        ((fix each (l : list json) : exn + list jsstring :=
            match l with
            | [] => inr []
            | e :: l =>
                match (match e with JNull => inr [] | _ => String_ e end) with
                | inl x => inl x
                | inr s => sum_map id (cons s) (each l)
                end
            end) l)
  | JObject fields =>
      match prop (lit "toString") (JObject fields) with
      | Some _ => inl (TypeError cannot_convert)
      | None => inr (lit "[object Object]")
      end
  end.

(** The strings of the elements of an array, as [join] makes them. *)
Fixpoint elements_String (l : list json) : exn + list jsstring :=
  match l with
  | [] => inr []
  | e :: l =>
      match (match e with JNull => inr [] | _ => String_ e end) with
      | inl x => inl x
      | inr s => sum_map id (cons s) (elements_String l)
      end
  end.

(** White space and line terminators, which [trim] removes. *)
Definition is_space (c : N) : bool :=
  bool_decide (c ∈ [9; 10; 11; 12; 13; 32; 160; 5760; 8232; 8233; 8239; 8287;
                    12288; 65279]%N)
  || ((8192 <=? c) && (c <=? 8202))%N.

Fixpoint trimStart (s : jsstring) : jsstring :=
  match s with
  | c :: s' => if is_space c then trimStart s' else s
  | [] => []
  end.

Definition trimEnd (s : jsstring) : jsstring := reverse (trimStart (reverse s)).

Definition trim (s : jsstring) : jsstring := trimEnd (trimStart s).

(** The literals of [loadDict], in UTF-16 code units. *)

(** 加载失败： (loading failed) *)
Definition load_failed : jsstring := [21152; 36733; 22833; 36133; 65306]%N.

(** （ and ）, the full-width parentheses around the status *)
Definition paren_l : jsstring := [65288]%N.
Definition paren_r : jsstring := [65289]%N.

(** 词库为空： (the dictionary is empty) *)
Definition dict_empty : jsstring := [35789; 24211; 20026; 31354; 65306]%N.

(** 词库 (dictionary), the name of a dictionary that gives none *)
Definition default_name : jsstring := [35789; 24211]%N.

(** [words.map((w) => String(w).trim())]: the array of the results, or
    what the first call that throws has thrown. *)
Fixpoint map_String_trim (words : list json) : exn + list jsstring :=
  match words with
  | [] => inr []
  | w :: words =>
      match String_ w with
      | inl e => inl e
      | inr s => sum_map id (cons (trim s)) (map_String_trim words)
      end
  end.

(** The result of [loadDict]. *)
Record dictionary := Dictionary { name : jsstring; words : list jsstring }.

Definition loadDict (net : network) (url : jsstring) : M dictionary :=
  res <- fetch net url;;
  if negb (ok res) then
    throw (Error (load_failed ++ url ++ paren_l
                  ++ Number_toString (status res) ++ paren_r))
  else
    json <- res_json res;;
    let name := match prop (lit "name") json with
                | Some (JString s) => s
                | _ => default_name
                end in
    let words := match prop (lit "words") json with
                 | Some (JArray l) => l
                 | _ => []
                 end in
    match map_String_trim words with
    | inl e => throw e
    | inr strings =>
        let cleaned := filter (λ w, (0 < length w)%nat) strings in
        if decide (length cleaned = 0%nat) then
          throw (Error (dict_empty ++ url))
        else ret (Dictionary name cleaned)
    end.

(** A string that neither starts nor ends with white space. *)
Definition trimmed (s : jsstring) : Prop :=
  (∀ c, head s = Some c → is_space c = false)
  ∧ (∀ c, last s = Some c → is_space c = false).

(** A string of white space only (the empty string is one). *)
Definition blank (s : jsstring) : Prop := Forall (λ c, is_space c = true) s.

End Dict.

(** The word list of the component: empty until a dictionary is chosen,
    then the words of a dictionary that [loadDict] returned
    ([setWords(data.words)]). *)
Definition loaded (words : list jsstring) : Prop :=
  words = []
  ∨ ∃ net url log d,
      (Dict.loadDict net url log).2 = inr d ∧ Dict.words d = words.

(** ** The component

    The state of [App]: what [useState] and [useRef] hold.  A handler is a
    function of the state that the rendering it belongs to saw; the
    updates it asks for ([setCorrect((c) => c + 1)], ...) are applied when
    it is done, so [dealNext] inside a handler reads the counters as they
    were before.

    The handlers come twice.  First each with the rendering that follows
    it, as one function of the state: what a click does when nothing else
    is queued.  Then by themselves, as steps of the component in time,
    where a click may be handled between a handler and its rendering, and
    between the two parts of [chooseDict]. *)

Module App.

Record state := State {
  dictLabel : option jsstring;
  dictName : option jsstring;
  words : list jsstring;
  loading : bool;
  errMsg : jsstring;
  started : bool;
  correct : Z;
  wrong : Z;
  flipKey : Z;
  cards : deck
}.

(** The state of the first rendering; the colour is ["#111827"]. *)
Definition initial : state :=
  State None None [] false [] false 0 0 0
    (Deck ∅ [] Null (Str (lit "#111827")) 0).

(** 加载词库失败 (loading the dictionary failed) *)
Definition load_error : jsstring := [21152; 36733; 35789; 24211; 22833; 36133]%N.

Section Handlers.
Context (env : nat → clock).

(** *** The handlers, each with the rendering that follows it

    A handler and the rendering that applies its updates, as one function
    of the state: what a click does when no other update is queued. *)

(** [toStartScreen({ reshuffle })] *)
Definition toStartScreen (reshuffle : bool) (s : state) : state :=
  let d := Deck ∅ [] Null (wordColor (cards s)) (tick (cards s)) in
  let d := if reshuffle && negb (length (words s) =? 0)%nat
           then resetDeck env (words s) d else d in
  State (dictLabel s) (dictName s) (words s) (loading s) (errMsg s)
    false 0 0 (flipKey s + 1) d.

(** The effect that follows a change of [words]:
    [if (words.length) resetDeck()]. *)
Definition words_effect (words : list jsstring) (d : deck) : deck :=
  if negb (length words =? 0)%nat then resetDeck env words d else d.

(** [chooseDict(label, url)], from the click to the end of the effect
    that a new word list sets off, with nothing else handled in
    between. *)
Definition chooseDict (net : Dict.network) (label url : jsstring)
    (s : state) (log : list Dict.event) : state * list Dict.event :=
  let '(log, r) := Dict.loadDict net url log in
  match r with
  | inr data =>
      (State (Some label) (Some (Dict.name data)) (Dict.words data) false []
         false 0 0 (flipKey s + 1)
         (words_effect (Dict.words data)
            (Deck ∅ [] Null (wordColor (cards s)) (tick (cards s)))),
       log)
  | inl e =>
      (State (dictLabel s) (dictName s) (words s) false
         (match Dict.message e with [] => load_error | m => m end)
         (started s) (correct s) (wrong s) (flipKey s) (cards s),
       log)
  end.

(** [onStart()]; [fuel] is that of [dealNext]. *)
Definition onStart (fuel : nat) (s : state) : option state :=
  if (length (words s) =? 0)%nat then Some s
  else
    d ← dealNext env (words s) (flipKey s) (correct s) (wrong s) fuel (Some 1)
          (resetDeck env (words s) (cards s));
    Some (State (dictLabel s) (dictName s) (words s) (loading s) (errMsg s)
            true 0 0 (flipKey s + 1) d).

(** [onRestart()] *)
Definition onRestart (s : state) : state := toStartScreen true s.

(** [onAnswer(isCorrect)] *)
Definition onAnswer (fuel : nat) (isCorrect : bool) (s : state) : option state :=
  if negb (started s) then Some s
  else
    d ← dealNext env (words s) (flipKey s) (correct s) (wrong s) fuel None
          (cards s);
    Some (State (dictLabel s) (dictName s) (words s) (loading s) (errMsg s)
            (started s)
            (if isCorrect then correct s + 1 else correct s)
            (if isCorrect then wrong s else wrong s + 1)
            (flipKey s + 1) d).

(** Successive answers. *)
Fixpoint answers (fuel : nat) (bs : list bool) (s : state) : option state :=
  match bs with
  | [] => Some s
  | b :: bs => s ← onAnswer fuel b s; answers fuel bs s
  end.

(** [progressText]: the numbers on either side of the stroke. *)
Definition progress (s : state) : nat * nat :=
  (size (used (cards s)), length (words s)).

(** *** The component in time

    The functions above take a handler together with the rendering that
    follows it.  In the component the two are apart.  A handler reads the
    state of the rendering it belongs to, the last one; what it writes to
    [usedRef] and [queueRef] is written at once, while the calls of the
    setters are queued.  The next rendering applies the queue, in the
    order of the calls.  The effect on [words] runs after a rendering
    that applied a [setWords], and before the rendering after it.
    [chooseDict] is in two parts, before and after [await loadDict(url)].
    Between any two of these steps another handler may run. *)

(** A call of a setter. *)
Inductive update :=
  | setDictLabel (label : jsstring)
  | setDictName (name : jsstring)
  | setWords (list : list jsstring)
  | setLoading (b : bool)
  | setErrMsg (m : jsstring)
  | setStarted (b : bool)
  | setCorrect (n : Z)
  | incCorrect
  | setWrong (n : Z)
  | incWrong
  | setWord (w : value)
  | setWordColor (c : value)
  | incFlipKey.

(** [incCorrect] is [setCorrect((c) => c + 1)], and so [incWrong] and
    [incFlipKey]. *)
Definition apply (u : update) (s : state) : state :=
  let d := cards s in
  match u with
  | setDictLabel v =>
      State (Some v) (dictName s) (words s) (loading s) (errMsg s) (started s)
        (correct s) (wrong s) (flipKey s) d
  | setDictName v =>
      State (dictLabel s) (Some v) (words s) (loading s) (errMsg s) (started s)
        (correct s) (wrong s) (flipKey s) d
  | setWords v =>
      State (dictLabel s) (dictName s) v (loading s) (errMsg s) (started s)
        (correct s) (wrong s) (flipKey s) d
  | setLoading v =>
      State (dictLabel s) (dictName s) (words s) v (errMsg s) (started s)
        (correct s) (wrong s) (flipKey s) d
  | setErrMsg v =>
      State (dictLabel s) (dictName s) (words s) (loading s) v (started s)
        (correct s) (wrong s) (flipKey s) d
  | setStarted v =>
      State (dictLabel s) (dictName s) (words s) (loading s) (errMsg s) v
        (correct s) (wrong s) (flipKey s) d
  | setCorrect v =>
      State (dictLabel s) (dictName s) (words s) (loading s) (errMsg s) (started s)
        v (wrong s) (flipKey s) d
  | incCorrect =>
      State (dictLabel s) (dictName s) (words s) (loading s) (errMsg s) (started s)
        (correct s + 1) (wrong s) (flipKey s) d
  | setWrong v =>
      State (dictLabel s) (dictName s) (words s) (loading s) (errMsg s) (started s)
        (correct s) v (flipKey s) d
  | incWrong =>
      State (dictLabel s) (dictName s) (words s) (loading s) (errMsg s) (started s)
        (correct s) (wrong s + 1) (flipKey s) d
  | setWord v =>
      State (dictLabel s) (dictName s) (words s) (loading s) (errMsg s) (started s)
        (correct s) (wrong s) (flipKey s)
        (Deck (used d) (queue d) v (wordColor d) (tick d))
  | setWordColor v =>
      State (dictLabel s) (dictName s) (words s) (loading s) (errMsg s) (started s)
        (correct s) (wrong s) (flipKey s)
        (Deck (used d) (queue d) (word d) v (tick d))
  | incFlipKey =>
      State (dictLabel s) (dictName s) (words s) (loading s) (errMsg s) (started s)
        (correct s) (wrong s) (flipKey s + 1) d
  end.

(** A rendering applies the queued updates in their order. *)
Definition render (us : list update) (s : state) : state :=
  foldl (λ s u, apply u s) s us.

(** Whether a rendering changes [words]: [setWords] is called with a new
    array each time. *)
Definition sets_words (us : list update) : bool :=
  existsb (λ u, match u with setWords _ => true | _ => false end) us.

(** The refs as they are in [d], with the word and the colour on display
    as they were. *)
Definition with_refs (d : deck) (s : state) : state :=
  State (dictLabel s) (dictName s) (words s) (loading s) (errMsg s) (started s)
    (correct s) (wrong s) (flipKey s)
    (Deck (used d) (queue d) (word (cards s)) (wordColor (cards s)) (tick d)).

(** The handlers by themselves: the state with the refs as the handler
    leaves them, and the updates it has queued.  [dealNext] on a list
    that is not empty ends with [setWord] and [setWordColor]; on the
    empty list it calls nothing. *)

Definition click_toStartScreen (reshuffle : bool) (s : state) : state * list update :=
  let d := Deck ∅ [] (word (cards s)) (wordColor (cards s)) (tick (cards s)) in
  let d := if reshuffle && negb (length (words s) =? 0)%nat
           then resetDeck env (words s) d else d in
  (with_refs d s,
   [setStarted false; setCorrect 0; setWrong 0; setWord Null; incFlipKey]).

Definition click_onRestart (s : state) : state * list update :=
  click_toStartScreen true s.

Definition click_onStart (fuel : nat) (s : state) : option (state * list update) :=
  if (length (words s) =? 0)%nat then Some (s, [])
  else
    d ← dealNext env (words s) (flipKey s) (correct s) (wrong s) fuel (Some 1)
          (resetDeck env (words s) (cards s));
    Some (with_refs d s,
          [setStarted true; setCorrect 0; setWrong 0; incFlipKey;
           setWord (word d); setWordColor (wordColor d)]).

Definition click_onAnswer (fuel : nat) (isCorrect : bool) (s : state)
  : option (state * list update) :=
  if negb (started s) then Some (s, [])
  else
    d ← dealNext env (words s) (flipKey s) (correct s) (wrong s) fuel None
          (cards s);
    Some (with_refs d s,
          [if isCorrect then incCorrect else incWrong; incFlipKey]
          ++ (if (length (words s) =? 0)%nat then []
              else [setWord (word d); setWordColor (wordColor d)])).

(** [chooseDict] up to the [await]. *)
Definition click_chooseDict : list update := [setErrMsg []; setLoading true].

(** [chooseDict] from the [await] on, [r] being what [loadDict] has
    returned or thrown. *)
Definition resume_chooseDict (label : jsstring) (r : Dict.exn + Dict.dictionary)
    (s : state) : state * list update :=
  match r with
  | inr data =>
      (with_refs (Deck ∅ [] Null Null (tick (cards s))) s,
       [setDictLabel label; setDictName (Dict.name data); setWords (Dict.words data);
        setStarted false; setCorrect 0; setWrong 0; setWord Null; incFlipKey;
        setLoading false])
  | inl e =>
      (s, [setErrMsg (match Dict.message e with [] => load_error | m => m end);
           setLoading false])
  end.

(** The component at a point in time: the state of the last rendering
    with the refs as they are now, the updates queued since, whether the
    effect of the last rendering is still to run, and the calls of
    [chooseDict] that wait for [loadDict]. *)
Record component := Component {
  seen : state;
  queued : list update;
  effect : bool;
  loads : list (jsstring * jsstring)
}.

(** The runs of the component, from the first rendering. *)
Inductive run : component → Prop :=
  | run_mount : run (Component initial [] true [])
  | run_click_chooseDict c label url :
      run c →
      run (Component (seen c) (queued c ++ click_chooseDict) (effect c)
             (loads c ++ [(label, url)]))
  | run_resume_chooseDict c before label url after net log s us :
      run c →
      loads c = before ++ (label, url) :: after →
      resume_chooseDict label (Dict.loadDict net url log).2 (seen c) = (s, us) →
      run (Component s (queued c ++ us) (effect c) (before ++ after))
  | run_click_onStart c fuel s us :
      run c →
      click_onStart fuel (seen c) = Some (s, us) →
      run (Component s (queued c ++ us) (effect c) (loads c))
  | run_click_onRestart c :
      run c →
      run (Component (click_onRestart (seen c)).1
             (queued c ++ (click_onRestart (seen c)).2) (effect c) (loads c))
  | run_click_onAnswer c fuel b s us :
      run c →
      click_onAnswer fuel b (seen c) = Some (s, us) →
      run (Component s (queued c ++ us) (effect c) (loads c))
  | run_render c :
      run c →
      effect c = false →
      run (Component (render (queued c) (seen c)) [] (sets_words (queued c))
             (loads c))
  | run_effect c :
      run c →
      effect c = true →
      run (Component
             (with_refs (words_effect (words (seen c)) (cards (seen c))) (seen c))
             (queued c) false (loads c)).

(** The states that a handler can be called in. *)
Definition reachable (s : state) : Prop := ∃ c, run c ∧ seen c = s.

(** The runs in which every click, and every dictionary that arrives, is
    rendered, and the effect of the rendering run, before the next is
    handled: the states that the handlers rendered at once lead to. *)
Inductive serial : state → Prop :=
  | serial_initial : serial initial
  | serial_chooseDict net label url s log :
      serial s → serial (chooseDict net label url s log).1
  | serial_onStart fuel s s' :
      serial s → onStart fuel s = Some s' → serial s'
  | serial_onRestart s :
      serial s → serial (onRestart s)
  | serial_onAnswer fuel b s s' :
      serial s → onAnswer fuel b s = Some s' → serial s'.

End Handlers.

(** A word of a list that [loadDict] returned. *)
Definition loaded_word (w : jsstring) : Prop :=
  ∃ words, loaded words ∧ w ∈ words.

(** What holds of the state of every rendering. *)
Definition rendered_ok (s : state) : Prop :=
  loaded (words s)
  ∧ (dictLabel s = None ↔ words s = [])
  ∧ (started s = true →
     (∃ w, word (cards s) = Str w ∧ w ≠ [] ∧ loaded_word w)
     ∧ ∃ c, c ∈ WORD_COLORS ∧ wordColor (cards s) = Str c)
  ∧ (0 ≤ correct s ∧ 0 ≤ wrong s ∧ 0 ≤ flipKey s)
  ∧ ∃ c, wordColor (cards s) = Str c ∧ (c = lit "#111827" ∨ c ∈ WORD_COLORS).

(** Updates that keep it. *)
Definition batch_ok (us : list update) : Prop :=
  ∀ s, rendered_ok s → rendered_ok (render us s).

(** The refs hold words of the list that the last rendering saw, or the
    effect that resets them is still to run. *)
Definition refs_ok (c : component) : Prop :=
  (effect c = true ∧ words (seen c) ≠ [])
  ∨ ((∀ v, v ∈ used (cards (seen c)) → v ∈ Str <$> words (seen c))
     ∧ (∀ v, v ∈ queue (cards (seen c)) → v ∈ Str <$> words (seen c))).

(** The queue holds loaded words, of whichever list. *)
Definition queue_ok (d : deck) : Prop :=
  ∀ v, v ∈ queue d → ∃ w, v = Str w ∧ loaded_word w.

(** What holds at every point of a run. *)
Definition run_invariant (c : component) : Prop :=
  rendered_ok (seen c)
  ∧ batch_ok (queued c)
  ∧ Forall (λ u, ∀ l, u = setWords l → l ≠ []) (queued c)
  ∧ queue_ok (cards (seen c))
  ∧ refs_ok c.

(** What holds of every state of a serial run. *)
Definition invariant (s : state) : Prop :=
  loaded (words s)
  ∧ (dictLabel s = None ↔ words s = [])
  ∧ (∀ v, v ∈ used (cards s) → v ∈ Str <$> words s)
  ∧ (∀ v, v ∈ queue (cards s) → v ∈ Str <$> words s)
  ∧ (started s = true →
     words s ≠ []
     ∧ (∃ w, word (cards s) = Str w ∧ Str w ∈ used (cards s))
     ∧ ∃ c, c ∈ WORD_COLORS ∧ wordColor (cards s) = Str c)
  ∧ (started s = false →
     word (cards s) = Null ∧ used (cards s) = ∅
     ∧ correct s = 0 ∧ wrong s = 0
     ∧ queue (cards s) ≡ₚ Str <$> words s)
  ∧ (0 ≤ correct s ∧ 0 ≤ wrong s ∧ 0 ≤ flipKey s)
  ∧ ∃ c, wordColor (cards s) = Str c ∧ (c = lit "#111827" ∨ c ∈ WORD_COLORS).

End App.

(** ** Sample data *)

Definition w_a : jsstring := lit "a".
Definition w_b : jsstring := lit "b".
Definition w_c : jsstring := lit "c".

(** A deck before anything was dealt. *)
Definition deck0 : deck := Deck ∅ [] Null Null 0.

(** Surroundings: the third of November 2026, and some results of
    [Math.random()]. *)
Definition env0 (n : nat) : clock :=
  Clock 2026 10 3 (Num (1234575 + N.of_nat n) 32).

(** A network that answers every request with the same response. *)
Definition always (res : Dict.response) : Dict.network := λ _, inr res.

Definition url0 : jsstring := lit "/words/x.json".

(** A dictionary with entries that are no strings, entries to trim and
    blank entries. *)
Definition doc0 : Dict.json :=
  Dict.JObject
    [(lit "name", Dict.JString (lit "demo"));
     (lit "words",
      Dict.JArray [Dict.JString (lit " a b "); Dict.JNull;
                   Dict.JString [12288; 32]%N; Dict.JNumber (lit "7");
                   Dict.JString []])].

(** A dictionary with nothing but blank entries. *)
Definition doc_blank : Dict.json :=
  Dict.JObject
    [(lit "words", Dict.JArray [Dict.JString (lit "  "); Dict.JString []])].

(** Dictionaries with the words a, b, c and a, a, b. *)
Definition doc_abc : Dict.json :=
  Dict.JObject
    [(lit "words",
      Dict.JArray [Dict.JString (lit "a"); Dict.JString (lit "b");
                   Dict.JString (lit "c")])].

Definition doc_aab : Dict.json :=
  Dict.JObject
    [(lit "words",
      Dict.JArray [Dict.JString (lit "a"); Dict.JString (lit "a");
                   Dict.JString (lit "b")])].

(** A dictionary with an entry that [String] cannot convert:
    [{"words": ["a", {"toString": 1}]}]. *)
Definition doc_toString : Dict.json :=
  Dict.JObject
    [(lit "words",
      Dict.JArray [Dict.JString (lit "a");
                   Dict.JObject [(lit "toString", Dict.JNumber (lit "1"))]])].

(** A dictionary with an empty list of words. *)
Definition doc_empty : Dict.json :=
  Dict.JObject [(lit "name", Dict.JString (lit "demo")); (lit "words", Dict.JArray [])].

(** A dictionary with the one word c. *)
Definition doc_c : Dict.json :=
  Dict.JObject [(lit "words", Dict.JArray [Dict.JString (lit "c")])].

(** The component after the dictionary a, a, b was chosen, and after the
    start button was clicked then. *)
Definition s_chosen : App.state :=
  (App.chooseDict env0 (always (Dict.Response 200 (inr doc_aab))) (lit "x") url0
     App.initial []).1.

Definition s_playing : App.state :=
  default App.initial (App.onStart env0 2 s_chosen).

(** * Properties *)

(** ** Numbers *)

Lemma pow2_pos_Z (k : N) : ∃ p, 2 ^ Z.of_N k = Z.pos p.
Proof.
  assert (0 < 2 ^ Z.of_N k) by (apply Z.pow_pos_nonneg; lia).
  destruct (2 ^ Z.of_N k) as [|p|p]; try lia. by exists p.
Qed.

Lemma in_unit_interval_iff (x : number) :
  in_unit_interval x ↔ (mant x < 2 ^ scale x)%N.
Proof.
  destruct x as [m k]. unfold in_unit_interval, to_Q. simpl.
  destruct (pow2_pos_Z k) as [p Hp].
  assert (Hp' : Z.of_N (2 ^ k) = Z.pos p) by (rewrite N2Z.inj_pow; exact Hp).
  rewrite Hp. unfold Qdiv, Qinv, Qmult, Qle, Qlt, inject_Z. simpl. split.
  - intros [_ H]. lia.
  - intros H. split; lia.
Qed.

Lemma round53_small (p : N) : (N.size p ≤ 53)%N → round53 p = p.
Proof.
  intros H. unfold round53.
  replace (N.size p - 53)%N with 0%N by lia. reflexivity.
Qed.

Lemma size_le_53 (p : N) : (p < 2 ^ 53)%N → (N.size p ≤ 53)%N.
Proof.
  intros H. destruct (N.eq_dec p 0%N) as [->|Hp]; [done|].
  rewrite N.size_log2 by done.
  apply N.le_succ_l, N.log2_lt_pow2; [lia|done].
Qed.

(** A sum below 2^53 in absolute value is exact. *)
Lemma add_int_exact (x y : Z) : Z.abs (x + y) < 2 ^ 53 → add_int x y = x + y.
Proof.
  intros H. unfold add_int. rewrite round53_small.
  - rewrite N2Z.inj_abs_N, Z.mul_comm. apply Z.abs_sgn.
  - apply size_le_53. lia.
Qed.

Lemma add_int_nonneg (x y : Z) : 0 ≤ x → 0 ≤ y → 0 ≤ add_int x y.
Proof.
  intros Hx Hy. unfold add_int.
  apply Z.mul_nonneg_nonneg; [apply Z.sgn_nonneg|]; lia.
Qed.

Lemma round53_upper (p : N) :
  (53 < N.size p)%N → (round53 p ≤ p + 2 ^ (N.size p - 54))%N.
Proof.
  intros H. unfold round53.
  set (d := (N.size p - 53)%N).
  assert (Hd : (d ≠ 0)%N) by lia.
  destruct (N.eqb_spec d 0) as [|_]; [done|].
  replace (N.size p - 54)%N with (d - 1)%N by lia.
  rewrite N.shiftl_mul_pow2, N.shiftr_div_pow2.
  assert (H2 : (2 ^ d = 2 * 2 ^ (d - 1))%N).
  { rewrite <- N.pow_succ_r'. f_equal. lia. }
  assert (Hpos : (0 < 2 ^ (d - 1))%N) by (apply N.neq_0_lt_0, N.pow_nonzero; lia).
  pose proof (N.div_mod p (2 ^ d)) as Hdm.
  pose proof (N.mod_lt p (2 ^ d)) as Hlt.
  set (q := (p / 2 ^ d)%N) in *. set (r := (p mod 2 ^ d)%N) in *.
  destruct (N.ltb_spec r (2 ^ (d - 1))); [nia|].
  destruct (N.ltb_spec (2 ^ (d - 1)) r); [nia|].
  destruct (N.even q); nia.
Qed.

Lemma size_lower (p : N) : (p ≠ 0)%N → (2 ^ (N.size p - 1) ≤ p)%N.
Proof.
  intros Hp. rewrite N.size_log2 by done.
  replace (N.succ (N.log2 p) - 1)%N with (N.log2 p) by lia.
  apply N.log2_spec. lia.
Qed.

(** The product of a binary64 value below one and a positive integer,
    rounded, stays below the integer. *)
Lemma round53_mul_lt (m k n : N) :
  (m < 2 ^ 53)%N → (m < 2 ^ k)%N → (0 < n)%N →
  (round53 (m * n) < n * 2 ^ k)%N.
Proof.
  intros Hm Hk Hn.
  destruct (decide (N.size (m * n) ≤ 53)%N) as [Hs|Hs].
  - rewrite round53_small by done. nia.
  - assert (Hs' : (53 < N.size (m * n))%N) by lia.
    pose proof (round53_upper _ Hs') as Hup.
    assert (Hnz : (m * n ≠ 0)%N).
    { intros E. rewrite E in Hs'. simpl in Hs'. lia. }
    pose proof (size_lower _ Hnz) as Hlow.
    set (d := (N.size (m * n) - 54)%N) in *.
    replace (N.size (m * n) - 1)%N with (53 + d)%N in Hlow by lia.
    rewrite N.pow_add_r in Hlow.
    assert (Hd : (0 < 2 ^ d)%N) by (apply N.neq_0_lt_0, N.pow_nonzero; lia).
    assert (2 ^ d < n)%N by nia.
    nia.
Qed.

Lemma pick_le (x : number) (i : nat) :
  is_double x → in_unit_interval x → (pick x i ≤ i)%nat.
Proof.
  intros [Hm _] Hu%in_unit_interval_iff.
  unfold pick, Math_floor, mul_int. simpl.
  rewrite N.shiftr_div_pow2.
  assert (round53 (mant x * N.of_nat (i + 1)) / 2 ^ scale x < N.of_nat (i + 1))%N.
  { apply N.Div0.div_lt_upper_bound.
    rewrite (N.mul_comm (2 ^ scale x)). apply round53_mul_lt; lia. }
  lia.
Qed.

(** ** mulberry32 *)

Lemma ToUint32_range (z : Z) : 0 ≤ Int32.ToUint32 z < 2 ^ 32.
Proof. unfold Int32.ToUint32. apply Z.mod_pos_bound. lia. Qed.

Lemma ushr_0_range (z : Z) : 0 ≤ Int32.ushr z 0 < 2 ^ 32.
Proof. unfold Int32.ushr. rewrite Z.shiftr_0_r. apply ToUint32_range. Qed.

(** Whatever the state, one call returns a 32-bit unsigned integer over
    2^32. *)
Lemma mulberry32_next_value (a : Z) :
  ∃ u : N, (u < 2 ^ 32)%N ∧ (mulberry32_next a).1 = Num u 32.
Proof.
  unfold mulberry32_next. cbv zeta.
  match goal with |- context [Z.to_N (Int32.ushr ?z 0)] => generalize z end.
  intros t. exists (Z.to_N (Int32.ushr t 0)). split; [|reflexivity].
  pose proof (ushr_0_range t). lia.
Qed.

Lemma mulberry32_next_unit (a : Z) :
  is_double (mulberry32_next a).1 ∧ in_unit_interval (mulberry32_next a).1.
Proof.
  destruct (mulberry32_next_value a) as (u & Hu & ->). split.
  - split; cbn [mant scale]; lia.
  - apply in_unit_interval_iff. cbn [mant scale]. lia.
Qed.

Lemma draws_Forall {G} (rnd : G → number * G) (P : number → Prop) :
  (∀ g, P (rnd g).1) → ∀ n g, Forall P (draws rnd n g).1.
Proof.
  intros HP. induction n as [|n IH]; intros g; simpl; [constructor|].
  specialize (HP g). destruct (rnd g) as [x g1].
  specialize (IH g1). destruct (draws rnd n g1) as [xs g2]. simpl in *.
  by constructor.
Qed.

(** C8. For every seed, every value that the generator returned by
    [mulberry32] produces, on whichever of its successive calls, is a
    32-bit unsigned integer divided by 2^32, and so is at least 0 and
    strictly below 1. *)
Theorem mulberry32_values_in_unit_interval (seed : Z) (n : nat) :
  Forall (λ x, (∃ u : N, (u < 2 ^ 32)%N ∧ x = Num u 32)
               ∧ (0 <= to_Q x)%Q ∧ (to_Q x < 1)%Q)
         (draws mulberry32_next n (mulberry32 seed)).1.
Proof.
  apply draws_Forall. intros a. split.
  - apply mulberry32_next_value.
  - apply mulberry32_next_unit.
Qed.

(** ** shuffle *)

Section ShuffleFacts.
Context {V : Type} (undefined : V) {G : Type} (rnd : G → number * G).
Implicit Types (σ : @heap V) (l : list V) (a i j : nat) (g : G).

Lemma load_store σ a l : (a < length σ)%nat → load (store σ a l) a = l.
Proof. intros H. unfold load, store, heap in *. by rewrite list_lookup_insert_eq. Qed.

Lemma load_store_ne σ a b l : a ≠ b → load (store σ a l) b = load σ b.
Proof. intros H. unfold load, store, heap in *. by rewrite list_lookup_insert_ne. Qed.

Lemma store_load σ a : store σ a (load σ a) = σ.
Proof.
  unfold load, store, heap in *. apply list_insert_id'. intros H.
  destruct (σ !! a) as [l|] eqn:E; [done|].
  apply lookup_ge_None in E. lia.
Qed.

Lemma swap_store a i j σ :
  (a < length σ)%nat →
  swap undefined a i j σ = store σ a (swap_array undefined (load σ a) i j).
Proof.
  intros H. unfold swap, swap_array.
  rewrite load_store by done. unfold store, heap in *. by rewrite list_insert_insert_eq.
Qed.

(** The loop writes to the location [a] only. *)
Lemma shuffle_loop_store a i g σ :
  (a < length σ)%nat →
  shuffle_loop undefined rnd a i g σ =
    ((shuffle_loop_array undefined rnd i g (load σ a)).1,
     store σ a (shuffle_loop_array undefined rnd i g (load σ a)).2).
Proof.
  revert g σ. induction i as [|i IH]; intros g σ H; simpl.
  - by rewrite store_load.
  - destruct (rnd g) as [x g1].
    rewrite swap_store by done.
    rewrite IH by (unfold store, heap in *; by rewrite length_insert).
    rewrite load_store by done. unfold store, heap in *.
    by rewrite list_insert_insert_eq.
Qed.

(** The call allocates one array, the result, and leaves the rest of the
    store as it was. *)
Lemma shuffle_eq arr g σ :
  shuffle undefined rnd arr g σ =
    let r := shuffle_loop_array undefined rnd
               (length (load σ arr) - 1) g (load σ arr) in
    (length σ, r.1, σ ++ [r.2]).
Proof.
  unfold shuffle, alloc.
  assert (Hl : ∀ l, load (σ ++ [l]) (length σ) = l).
  { intros l. unfold load, heap in *. by rewrite list_lookup_middle. }
  rewrite Hl.
  rewrite shuffle_loop_store by (unfold heap in *; rewrite length_app; simpl; lia).
  rewrite Hl. cbv zeta. f_equal. unfold store, heap in *.
  replace (length σ) with (length σ + 0)%nat at 1 by lia.
  by rewrite insert_app_r.
Qed.

Lemma shuffle_list_eq l g :
  shuffle_list undefined rnd l g =
    ((shuffle_loop_array undefined rnd (length l - 1) g l).2,
     (shuffle_loop_array undefined rnd (length l - 1) g l).1).
Proof. unfold shuffle_list. rewrite shuffle_eq. reflexivity. Qed.

Lemma aset_lt l i (v : V) : (i < length l)%nat → aset undefined l i v = <[i := v]> l.
Proof. intros H. unfold aset. by rewrite decide_True. Qed.

Lemma swap_array_in_range l i j :
  (i < length l)%nat → (j < length l)%nat →
  swap_array undefined l i j = swap_list l i j.
Proof.
  intros Hi Hj. unfold swap_array, swap_list, aget.
  destruct (lookup_lt_is_Some_2 l i Hi) as [vi ->].
  destruct (lookup_lt_is_Some_2 l j Hj) as [vj ->]. simpl.
  rewrite (aset_lt l i) by done. rewrite aset_lt by (by rewrite length_insert). done.
Qed.

Lemma swap_list_length l i j : length (swap_list l i j) = length l.
Proof.
  unfold swap_list. destruct (l !! i), (l !! j); try done.
  by rewrite !length_insert.
Qed.

Lemma swap_list_perm l i j : swap_list l i j ≡ₚ l.
Proof.
  unfold swap_list.
  destruct (l !! i) as [vi|] eqn:Hi; [|done].
  destruct (l !! j) as [vj|] eqn:Hj; [|done].
  apply Permutation_inj. split; [by rewrite !length_insert|].
  exists (λ k, if decide (k = j) then i else if decide (k = i) then j else k).
  split.
  - intros x y. repeat case_decide; lia.
  - intros k.
    pose proof (lookup_lt_Some _ _ _ Hi). pose proof (lookup_lt_Some _ _ _ Hj).
    destruct (decide (k = j)) as [->|Hkj].
    + rewrite list_lookup_insert_eq by (by rewrite length_insert). done.
    + rewrite list_lookup_insert_ne by done.
      destruct (decide (k = i)) as [->|Hki].
      * by rewrite list_lookup_insert_eq.
      * by rewrite list_lookup_insert_ne.
Qed.

Lemma fisher_yates_length i xs l : length (fisher_yates i xs l) = length l.
Proof.
  revert xs l. induction i as [|i IH]; intros [|x xs] l; simpl; try done.
  by rewrite IH, swap_list_length.
Qed.

Lemma fisher_yates_perm i xs l : fisher_yates i xs l ≡ₚ l.
Proof.
  revert xs l. induction i as [|i IH]; intros [|x xs] l; simpl; try done.
  by rewrite IH, swap_list_perm.
Qed.

Lemma draws_length n g : length (draws rnd n g).1 = n.
Proof.
  revert g. induction n as [|n IH]; intros g; simpl; [done|].
  destruct (rnd g) as [x g1]. specialize (IH g1).
  destruct (draws rnd n g1) as [xs g2]. simpl in *. by rewrite IH.
Qed.

(** With a random source whose numbers are binary64 values in [0, 1) the
    loop is Fisher-Yates over the numbers of its successive calls. *)
Lemma shuffle_loop_array_fisher_yates :
  (∀ g, is_double (rnd g).1 ∧ in_unit_interval (rnd g).1) →
  ∀ i g l, (i < length l)%nat →
    shuffle_loop_array undefined rnd i g l =
      ((draws rnd i g).2, fisher_yates i (draws rnd i g).1 l).
Proof.
  intros Hrnd. induction i as [|i IH]; intros g l Hi; simpl; [done|].
  pose proof (Hrnd g) as [Hd Hu]. destruct (rnd g) as [x g1]. simpl in *.
  pose proof (pick_le x (S i) Hd Hu) as Hj.
  rewrite swap_array_in_range by lia.
  rewrite IH by (rewrite swap_list_length; lia).
  by destruct (draws rnd i g1) as [xs g2].
Qed.

End ShuffleFacts.

(** C2. For every input array and every random source (a source of
    binary64 numbers in [0, 1)), [shuffle] is the Fisher-Yates algorithm:
    with [n] the last index, it calls the random source exactly [n] times,
    once per position [n, n-1, ..., 1]; the number drawn at position [i]
    picks an index [j] in [0, i]; the result is that of swapping the
    elements at [i] and [j] position after position; and the result is a
    permutation of the input. *)
Theorem shuffle_fisher_yates {V : Type} (undefined : V) {G : Type}
    (rnd : G → number * G) (arr : loc) (g : G) (σ : heap) :
  (∀ g, is_double (rnd g).1 ∧ in_unit_interval (rnd g).1) →
  let l := load σ arr in
  let n := (length l - 1)%nat in
  let r := shuffle undefined rnd arr g σ in
  let xs := (draws rnd n g).1 in
  length xs = n
  ∧ r.1.2 = (draws rnd n g).2
  ∧ (∀ k x, xs !! k = Some x → (pick x (n - k) ≤ n - k)%nat)
  ∧ load r.2 r.1.1 = fisher_yates n xs l
  ∧ load r.2 r.1.1 ≡ₚ l.
Proof.
  intros Hrnd l n r xs.
  assert (Hr : r = (length σ, (draws rnd n g).2, σ ++ [fisher_yates n xs l])).
  { subst r. rewrite shuffle_eq. cbv zeta. fold l. fold n.
    destruct (decide (length l = 0%nat)) as [Hl|Hl].
    - replace n with 0%nat by lia. reflexivity.
    - rewrite shuffle_loop_array_fisher_yates by (done || lia). reflexivity. }
  assert (Hload : load r.2 r.1.1 = fisher_yates n xs l).
  { rewrite Hr. simpl. unfold load, heap in *. by rewrite list_lookup_middle. }
  split_and!.
  - apply draws_length.
  - by rewrite Hr.
  - intros k x Hx. apply pick_le.
    + eapply (Forall_lookup_1 _ _ _ _ (draws_Forall rnd is_double (λ g, proj1 (Hrnd g)) n g) Hx).
    + eapply (Forall_lookup_1 _ _ _ _ (draws_Forall rnd in_unit_interval (λ g, proj2 (Hrnd g)) n g) Hx).
  - done.
  - rewrite Hload. apply fisher_yates_perm.
Qed.

Lemma shuffle_fisher_yates_witness :
  let σ := [[1; 2; 3; 4; 5]%nat] in
  let r := shuffle 0%nat mulberry32_next 0%nat (mulberry32 42) σ in
  (∀ g, is_double (mulberry32_next g).1 ∧ in_unit_interval (mulberry32_next g).1)
  ∧ load r.2 r.1.1 ≡ₚ [1; 2; 3; 4; 5]%nat.
Proof.
  intros σ r. split; [exact mulberry32_next_unit|].
  apply (shuffle_fisher_yates 0%nat mulberry32_next 0%nat (mulberry32 42) σ
           mulberry32_next_unit).
Defined.

(** Why C2 asks for numbers below one: a source that returns 1 makes the
    loop pick the index [i + 1], past the end, and the array grows by an
    [undefined] element (here [0] stands for [undefined]). *)
Example shuffle_number_one :
  let r := shuffle 0%nat (λ g : unit, (Num 1 0, g)) 0%nat tt [[1; 2]%nat] in
  load r.2 r.1.1 = [1; 0; 2]%nat.
Proof. reflexivity. Qed.

(** C7. [shuffle] does not change its input: for every array of the store
    and every random source, the result is a new array, and the input
    array, like every other array of the store, holds after the call what
    it held before. *)
Theorem shuffle_leaves_input {V : Type} (undefined : V) {G : Type}
    (rnd : G → number * G) (arr : loc) (g : G) (σ : heap) :
  (arr < length σ)%nat →
  let r := shuffle undefined rnd arr g σ in
  r.1.1 ≠ arr
  ∧ load r.2 arr = load σ arr
  ∧ r.2 = σ ++ [load r.2 r.1.1].
Proof.
  intros Harr r. subst r. rewrite shuffle_eq. cbv zeta. simpl.
  split_and!.
  - lia.
  - unfold load, heap in *. by rewrite lookup_app_l.
  - unfold load, heap in *. by rewrite list_lookup_middle.
Qed.

Lemma shuffle_leaves_input_witness :
  let σ := [[1; 2; 3; 4; 5]%nat] in
  let r := shuffle 0%nat mulberry32_next 0%nat (mulberry32 42) σ in
  (0 < length σ)%nat
  ∧ load r.2 0%nat = [1; 2; 3; 4; 5]%nat
  ∧ load r.2 r.1.1 = [1; 5; 3; 2; 4]%nat.
Proof.
  intros σ r.
  assert (H : (0 < length σ)%nat) by (simpl; lia).
  split; [exact H|]. split.
  - apply (shuffle_leaves_input 0%nat mulberry32_next 0%nat (mulberry32 42) σ H).
  - vm_compute. reflexivity.
Defined.

Lemma mulberry32_ToUint32 (seed : Z) : mulberry32 seed = Int32.ToUint32 seed.
Proof. unfold mulberry32, Int32.ushr. apply Z.shiftr_0_r. Qed.

(** C3. [shuffle] is deterministic in its random source: two runs with
    generators made by [mulberry32] from the same 32-bit seed, on arrays
    with the same elements, give the same output sequence, wherever the
    arrays are in the store; for the two generators yield the same
    sequence of values on their successive calls. *)
Theorem shuffle_deterministic {V : Type} (undefined : V)
    (seed1 seed2 : Z) (arr1 arr2 : loc) (σ1 σ2 : @heap V) :
  Int32.ToUint32 seed1 = Int32.ToUint32 seed2 →
  load σ1 arr1 = load σ2 arr2 →
  let r1 := shuffle undefined mulberry32_next arr1 (mulberry32 seed1) σ1 in
  let r2 := shuffle undefined mulberry32_next arr2 (mulberry32 seed2) σ2 in
  (∀ n, draws mulberry32_next n (mulberry32 seed1)
        = draws mulberry32_next n (mulberry32 seed2))
  ∧ load r1.2 r1.1.1 = load r2.2 r2.1.1
  ∧ r1.1.2 = r2.1.2.
Proof.
  intros Hseed Harr r1 r2.
  assert (Hg : mulberry32 seed1 = mulberry32 seed2)
    by (by rewrite !mulberry32_ToUint32).
  subst r1 r2. rewrite !shuffle_eq, Hg, Harr. cbv zeta. simpl.
  split_and!; [done| |done].
  unfold load, heap in *. by rewrite !list_lookup_middle.
Qed.

Lemma shuffle_deterministic_witness :
  let σ1 := [[1; 2; 3; 4; 5]%nat] in
  let σ2 := [[7]; []; [1; 2; 3; 4; 5]]%nat in
  let r1 := shuffle 0%nat mulberry32_next 0%nat (mulberry32 42) σ1 in
  let r2 := shuffle 0%nat mulberry32_next 2%nat (mulberry32 (42 + 2 ^ 32)) σ2 in
  load r1.2 r1.1.1 = load r2.2 r2.1.1.
Proof.
  intros σ1 σ2 r1 r2.
  apply (shuffle_deterministic 0%nat 42 (42 + 2 ^ 32) 0%nat 2%nat σ1 σ2
           eq_refl eq_refl).
Defined.

(** The state of the generator is threaded through its calls: a second
    [shuffle] with the generator that the first one used continues its
    sequence, and gives another order. *)
Example shuffle_same_generator_again :
  let r1 := shuffle_list 0%nat mulberry32_next [1; 2; 3; 4; 5]%nat (mulberry32 42) in
  let r2 := shuffle_list 0%nat mulberry32_next [1; 2; 3; 4; 5]%nat r1.2 in
  r1.1 = [1; 5; 3; 2; 4]%nat ∧ r2.1 = [4; 2; 5; 3; 1]%nat.
Proof. vm_compute. done. Qed.

(** ** The dictionary loader *)

Section DictFacts.
Import Dict.

Lemma trimStart_spec (s : jsstring) :
  ∃ pre, s = pre ++ trimStart s ∧ blank pre
    ∧ ∀ c, head (trimStart s) = Some c → is_space c = false.
Proof.
  induction s as [|c s (pre & Hs & Hpre & Hhd)]; simpl.
  - exists []. split_and!; [done|constructor|done].
  - destruct (is_space c) eqn:Hc.
    + exists (c :: pre). split_and!; [by rewrite Hs at 1|by constructor|done].
    + exists []. split_and!; [done|constructor|]. by intros c' [= <-].
Qed.

Lemma trimEnd_spec (s : jsstring) :
  ∃ post, s = trimEnd s ++ post ∧ blank post
    ∧ ∀ c, last (trimEnd s) = Some c → is_space c = false.
Proof.
  unfold trimEnd.
  destruct (trimStart_spec (reverse s)) as (pre & Hs & Hpre & Hhd).
  exists (reverse pre). split_and!.
  - rewrite <- reverse_app, <- Hs. by rewrite reverse_involutive.
  - unfold blank in *. by apply Forall_reverse.
  - intros c. rewrite last_reverse. apply Hhd.
Qed.

Lemma trim_spec (s : jsstring) :
  ∃ pre post, s = pre ++ trim s ++ post ∧ blank pre ∧ blank post ∧ trimmed (trim s).
Proof.
  unfold trim.
  destruct (trimStart_spec s) as (pre & Hs & Hpre & Hhd).
  destruct (trimEnd_spec (trimStart s)) as (post & Ht & Hpost & Hlast).
  exists pre, post. split_and!; [by rewrite <- Ht|done|done|].
  split; [|done]. intros c Hc. apply Hhd. rewrite Ht.
  rewrite head_app. by rewrite Hc.
Qed.

Lemma trim_nil_iff (s : jsstring) : trim s = [] ↔ blank s.
Proof.
  split.
  - intros E. destruct (trim_spec s) as (pre & post & Hs & Hpre & Hpost & _).
    rewrite E in Hs. rewrite Hs. unfold blank in *. by apply Forall_app.
  - intros Hb. assert (Hts : trimStart s = []).
    { induction Hb as [|c s Hc _ IH]; simpl; [done|]. by rewrite Hc. }
    unfold trim. by rewrite Hts.
Qed.

(** What [loadDict] does with a response whose status is a success and
    whose body is the document [doc]. *)
Lemma loadDict_ok (net : network) (url : jsstring) (log : list event)
    (res : response) (doc : json) :
  net url = inr res → ok res = true → body res = inr doc →
  loadDict net url log =
    let name := match prop (lit "name") doc with
                | Some (JString s) => s
                | _ => default_name
                end in
    let words := match prop (lit "words") doc with
                 | Some (JArray l) => l
                 | _ => []
                 end in
    (log ++ [Fetched url; Parsed],
     match map_String_trim words with
     | inl e => inl e
     | inr strings =>
         let cleaned := filter (λ w, (0 < length w)%nat) strings in
         if decide (length cleaned = 0%nat)
         then inl (Error (dict_empty ++ url))
         else inr (Dictionary name cleaned)
     end).
Proof.
  intros Hnet Hok Hbody.
  unfold loadDict, fetch, res_json, bind, emit, ret, throw.
  rewrite Hnet, Hok, Hbody. cbn [negb]. cbv zeta.
  destruct (map_String_trim _); [cbv beta; by rewrite <- app_assoc|].
  destruct (decide _); cbv beta; by rewrite <- app_assoc.
Qed.

(** What [loadDict] does with a response whose status is no success. *)
Lemma loadDict_not_ok (net : network) (url : jsstring) (log : list event)
    (res : response) :
  net url = inr res → ok res = false →
  loadDict net url log =
    (log ++ [Fetched url],
     inl (Error (load_failed ++ url ++ paren_l
                 ++ Number_toString (status res) ++ paren_r))).
Proof.
  intros Hnet Hok.
  unfold loadDict, fetch, res_json, bind, emit, ret, throw.
  by rewrite Hnet, Hok.
Qed.

(** An induction principle for documents that reaches the elements of
    an array. *)
Lemma json_ind_elements (P : json → Prop) :
  P JNull → (∀ b, P (JBool b)) → (∀ t, P (JNumber t)) → (∀ s, P (JString s)) →
  (∀ l, Forall P l → P (JArray l)) → (∀ fields, P (JObject fields)) →
  ∀ j, P j.
Proof.
  intros Hnull Hbool Hnum Hstr Harr Hobj.
  fix IH 1. intros [|b|t|s|l|fields];
    [exact Hnull|apply Hbool|apply Hnum|apply Hstr| |apply Hobj].
  apply Harr. induction l as [|e l IHl]; constructor; [apply IH|apply IHl].
Qed.

Lemma String_JArray (l : list json) :
  String_ (JArray l) = sum_map id (join (lit ",")) (elements_String l).
Proof.
  reflexivity.
Qed.

(** The one error of [String]. *)
Lemma String_throws (w : json) (e : exn) :
  String_ w = inl e → e = TypeError cannot_convert.
Proof.
  revert e. induction w as [|b|t|s|l IH|fields] using json_ind_elements;
    intros e.
  - discriminate.
  - destruct b; discriminate.
  - discriminate.
  - discriminate.
  - rewrite String_JArray.
    destruct (elements_String l) as [x|ss] eqn:Hl; [|discriminate].
    simpl. intros [= <-]. revert x Hl.
    induction IH as [|w l Hw _ IHl]; intros x; [discriminate|].
    cbn [elements_String].
    destruct (match w with JNull => inr [] | _ => String_ w end) as [y|s] eqn:Ew.
    + intros [= <-]. apply Hw. destruct w; try exact Ew. discriminate Ew.
    + destruct (elements_String l) as [y|ss]; [|discriminate].
      simpl. intros [= <-]. by apply IHl.
  - cbn [String_]. destruct (prop _ _); [|discriminate]. by intros [= <-].
Qed.

(** [map_String_trim] returns the trimmed string of each entry, in
    order. *)
Lemma map_String_trim_inr (entries : list json) (strings : list jsstring) :
  map_String_trim entries = inr strings →
  Forall2 (λ e t, ∃ s, String_ e = inr s ∧ t = trim s) entries strings.
Proof.
  revert strings. induction entries as [|e entries IH]; intros strings; simpl.
  - intros [= <-]. constructor.
  - destruct (String_ e) as [x|s] eqn:Es; [done|].
    destruct (map_String_trim entries) as [x|ts]; [done|].
    simpl. intros [= <-]. constructor; [by exists s|by apply IH].
Qed.

Lemma map_String_trim_Forall2 (entries : list json) (strings : list jsstring) :
  Forall2 (λ e t, ∃ s, String_ e = inr s ∧ t = trim s) entries strings →
  map_String_trim entries = inr strings.
Proof.
  induction 1 as [|e t entries strings (s & Es & ->) _ IH]; [done|].
  cbn [map_String_trim]. by rewrite Es, IH.
Qed.

(** [map_String_trim] throws what the conversion of an entry throws. *)
Lemma map_String_trim_inl (entries : list json) (x : exn) :
  map_String_trim entries = inl x → ∃ e, e ∈ entries ∧ String_ e = inl x.
Proof.
  induction entries as [|e entries IH]; simpl; [done|].
  destruct (String_ e) as [y|s] eqn:Es.
  - intros [= <-]. exists e. split; [by left|done].
  - destruct (map_String_trim entries) as [y|ts]; [|done].
    simpl. intros [= <-]. destruct (IH eq_refl) as (e' & He' & Ee').
    exists e'. split; [by right|done].
Qed.

(** Strings are made strings as they are. *)
Lemma map_String_trim_strings (ws : list jsstring) :
  map_String_trim (JString <$> ws) = inr (trim <$> ws).
Proof.
  induction ws as [|w ws IH]; [done|].
  rewrite fmap_cons. cbn [map_String_trim String_]. by rewrite IH.
Qed.

Lemma cleaned_Forall (strings : list jsstring) :
  Forall (λ w, w ≠ [] ∧ trimmed w)
    (filter (λ w, (0 < length w)%nat) (trim <$> strings)).
Proof.
  apply Forall_forall. intros w [Hlen Hw]%list_elem_of_filter.
  apply list_elem_of_fmap in Hw as (e & -> & _). split.
  - intros E. rewrite E in Hlen. simpl in Hlen. lia.
  - by destruct (trim_spec e) as (_ & _ & _ & _ & _ & Ht).
Qed.

Lemma map_String_trim_trimmed (entries : list json) (strings : list jsstring) :
  map_String_trim entries = inr strings →
  Forall (λ w, w ≠ [] ∧ trimmed w) (filter (λ w, (0 < length w)%nat) strings).
Proof.
  intros H%map_String_trim_inr.
  apply Forall_forall. intros w [Hlen Hw]%list_elem_of_filter. split.
  - intros E. rewrite E in Hlen. simpl in Hlen. lia.
  - apply list_elem_of_lookup in Hw as [i Hi].
    destruct (Forall2_lookup_r _ _ _ _ _ H Hi) as (e & _ & s & _ & ->).
    by destruct (trim_spec s) as (_ & _ & _ & _ & _ & Ht).
Qed.

(** The words of a dictionary that [loadDict] returns: there is one, and
    none is empty. *)
Lemma loadDict_words (net : network) (url : jsstring) (log log' : list event)
    (d : dictionary) :
  loadDict net url log = (log', inr d) →
  words d ≠ [] ∧ Forall (λ w, w ≠ [] ∧ trimmed w) (words d).
Proof.
  destruct (net url) as [m|res] eqn:Hnet.
  { unfold loadDict, fetch, bind, emit, throw. by rewrite Hnet. }
  destruct (ok res) eqn:Hok.
  2: { by rewrite (loadDict_not_ok net url log res Hnet Hok). }
  destruct (body res) as [m|doc] eqn:Hbody.
  { unfold loadDict, fetch, res_json, bind, emit, ret, throw.
    by rewrite Hnet, Hok, Hbody. }
  rewrite (loadDict_ok net url log res doc Hnet Hok Hbody). cbv zeta.
  destruct (map_String_trim _) as [x|strings] eqn:Hs; [done|].
  destruct (decide _) as [|Hlen]; [done|]. intros [= _ <-]. simpl. split.
  - intros E. by rewrite E in Hlen.
  - by apply map_String_trim_trimmed in Hs.
Qed.

(** Entries that are blank as strings leave nothing. *)
Lemma cleaned_nil (entries : list json) :
  (∀ e, e ∈ entries → ∃ s, String_ e = inr s ∧ blank s) →
  ∃ strings, map_String_trim entries = inr strings
    ∧ filter (λ w, (0 < length w)%nat) strings = [].
Proof.
  intros Hblank. induction entries as [|e entries IH]; [by exists []|].
  destruct (Hblank e) as (s & Es & Hs); [by left|].
  destruct IH as (strings & E & Hnil).
  { intros e' He'. apply Hblank. by right. }
  exists (trim s :: strings). cbn [map_String_trim]. rewrite Es, E. split; [done|].
  rewrite filter_cons. rewrite (proj2 (trim_nil_iff _) Hs).
  by rewrite decide_False by (simpl; lia).
Qed.

End DictFacts.

(** A loaded word list has no empty word. *)
Lemma loaded_nonempty (words : list jsstring) :
  loaded words → Forall (λ w, w ≠ []) words.
Proof.
  intros [->|(net & url & log & d & Hd & <-)]; [constructor|].
  destruct (Dict.loadDict net url log) as [log' r] eqn:E. simpl in Hd. subst r.
  apply loadDict_words in E as [_ HF].
  eapply Forall_impl; [exact HF|]. by intros w [? _].
Qed.

Lemma loaded_abc : loaded [w_a; w_b; w_c].
Proof.
  right. exists (always (Dict.Response 200 (inr doc_abc))), url0, [].
  eexists. split; reflexivity.
Qed.

Lemma loaded_aab : loaded [w_a; w_a; w_b].
Proof.
  right. exists (always (Dict.Response 200 (inr doc_aab))), url0, [].
  eexists. split; reflexivity.
Qed.

(** ** The deck *)

Lemma shuffle_list_perm {V : Type} (undefined : V) {G : Type}
    (rnd : G → number * G) (l : list V) (g : G) :
  (∀ g, is_double (rnd g).1 ∧ in_unit_interval (rnd g).1) →
  (shuffle_list undefined rnd l g).1 ≡ₚ l.
Proof.
  intros Hrnd. rewrite shuffle_list_eq. simpl.
  destruct (decide (length l = 0%nat)) as [Hl|Hl].
  - replace (length l - 1)%nat with 0%nat by lia. done.
  - rewrite shuffle_loop_array_fisher_yates by (done || lia).
    apply fisher_yates_perm.
Qed.

Section DeckFacts.
Context (env : nat → clock) (words : list jsstring) (flipKey correct wrong : Z).

Local Abbreviation resetDeck' := (resetDeck env words).
Local Abbreviation new_queue' := (new_queue env words).
Local Abbreviation dealNext' := (dealNext env words flipKey correct wrong).
Local Abbreviation deals' := (deals env words flipKey correct wrong).

Lemma resetDeck_eq (st : deck) :
  resetDeck' st = Deck ∅ (new_queue' (tick st)) (word st) (wordColor st) (S (tick st)).
Proof.
  unfold resetDeck, new_queue.
  by destruct (shuffle_list _ _ _ _).
Qed.

Lemma new_queue_perm (n : nat) : new_queue' n ≡ₚ Str <$> words.
Proof. apply shuffle_list_perm, mulberry32_next_unit. Qed.

Lemma new_queue_elem (n : nat) (v : value) :
  v ∈ new_queue' n ↔ ∃ w, v = Str w ∧ w ∈ words.
Proof. rewrite new_queue_perm. apply list_elem_of_fmap. Qed.

Lemma new_queue_nonempty (n : nat) : words ≠ [] → new_queue' n ≠ [].
Proof.
  intros Hw Hq. pose proof (new_queue_perm n) as Hp. rewrite Hq in Hp.
  apply Permutation_nil_l in Hp. by destruct words.
Qed.

(** What the [while] loop leaves: it stops at the first value that is not
    in the used set, or empties the queue. *)
Lemma pop_unused_spec (U : gset value) (Q : list value) :
  (pop_unused U Q = (Null, []) ∧ ∀ v, v ∈ Q → v ∈ U)
  ∨ ∃ skipped, Q = skipped ++ ((pop_unused U Q).1 :: (pop_unused U Q).2)
      ∧ ¬ ((pop_unused U Q).1 ∈ U) ∧ ∀ v, v ∈ skipped → v ∈ U.
Proof.
  induction Q as [|w Q IH]; simpl.
  - left. split; [done|]. intros v Hv. by apply elem_of_nil in Hv.
  - destruct (decide (w ∈ U)) as [Hw|Hw].
    + destruct IH as [[-> IH]|(sk & HQ & Hn & Hsk)].
      * left. split; [done|]. intros v [->|Hv]%elem_of_cons; auto.
      * right. exists (w :: sk). split_and!; [by rewrite HQ at 1|done|].
        intros v [->|Hv]%elem_of_cons; auto.
    + right. exists []. split_and!; [done|done|].
      intros v Hv. by apply elem_of_nil in Hv.
Qed.

Lemma pop_unused_cycle (U : gset value) (Q : list value) :
  cycle U Q ≠ [] →
  (pop_unused U Q).1 ∈ Q
  ∧ (∀ v, v ∈ (pop_unused U Q).2 → v ∈ Q)
  ∧ cycle U Q = (pop_unused U Q).1
                 :: cycle ({[ (pop_unused U Q).1 ]} ∪ U) (pop_unused U Q).2.
Proof.
  induction Q as [|w Q IH]; simpl; [done|].
  destruct (decide (w ∈ U)) as [Hw|Hw]; simpl.
  - intros Hc. destruct (IH Hc) as (H1 & H2 & H3).
    split_and!; [by right| |done]. intros v Hv. right. auto.
  - intros _. split_and!; [by left| |done]. intros v Hv. by right.
Qed.

Lemma cycle_elem (U : gset value) (Q : list value) (v : value) :
  v ∈ cycle U Q ↔ v ∈ Q ∧ v ∉ U.
Proof.
  revert U. induction Q as [|w Q IH]; intros U; simpl.
  - split; [by intros ?%elem_of_nil|by intros [?%elem_of_nil _]].
  - destruct (decide (w ∈ U)) as [Hw|Hw].
    + rewrite IH, elem_of_cons. naive_solver.
    + rewrite !elem_of_cons, IH. split.
      * intros [->|[? ?]]; [by auto|]. split; [by auto|set_solver].
      * intros [[->|?] ?]; [by left|].
        destruct (decide (v = w)) as [->|]; [by left|]. right. set_solver.
Qed.

Lemma cycle_NoDup (U : gset value) (Q : list value) : NoDup (cycle U Q).
Proof.
  revert U. induction Q as [|w Q IH]; intros U; simpl; [constructor|].
  destruct (decide (w ∈ U)); [done|].
  constructor; [|done]. rewrite cycle_elem. set_solver.
Qed.

(** A full cycle from a new queue finds every distinct word once. *)
Lemma cycle_new_queue (n : nat) :
  cycle ∅ (new_queue' n) ≡ₚ Str <$> remove_dups words.
Proof.
  apply NoDup_Permutation.
  - apply cycle_NoDup.
  - apply (NoDup_fmap_2 _), NoDup_remove_dups.
  - intros v. rewrite cycle_elem, new_queue_elem, list_elem_of_fmap.
    setoid_rewrite elem_of_remove_dups. set_solver.
Qed.

(** A call that finds an unused word deals it, with no new shuffle. *)
Lemma dealNext_pop (fuel : nat) (salt : option Z) (st : deck) c s q :
  words ≠ [] →
  pop_unused (used st) (queue st) = (Str (c :: s), q) →
  dealNext' (S fuel) salt st =
    Some (Deck ({[ Str (c :: s) ]} ∪ used st) q (Str (c :: s))
            (pickColor (c :: s)
               (from_option id (flipKey + correct * 3 + wrong * 7) salt))
            (tick st)).
Proof.
  intros Hw Hpop. simpl. rewrite decide_False by done.
  destruct (decide (queue st = [])) as [Hq|Hq].
  - rewrite Hq in Hpop. simpl in Hpop. discriminate.
  - by rewrite Hpop.
Qed.

Lemma dealNext_fuel (fuel : nat) (salt : option Z) (st st' : deck) :
  dealNext' fuel salt st = Some st' → dealNext' (S fuel) salt st = Some st'.
Proof.
  revert salt st. induction fuel as [|fuel IH]; intros salt st; [done|].
  intros H. simpl in H.   remember (S fuel) as f eqn:Hf. simpl. subst f.
  destruct (decide (words = [])); [done|].
  destruct (pop_unused _ _) as [next q].
  destruct next as [| |[|c s]]; try done; by apply IH.
Qed.

Lemma dealNext_fuel_le (f1 f2 : nat) (salt : option Z) (st st' : deck) :
  (f1 ≤ f2)%nat → dealNext' f1 salt st = Some st' → dealNext' f2 salt st = Some st'.
Proof.
  induction 1 as [|f2 Hle IH]; [done|]. intros Hd. by apply dealNext_fuel, IH.
Qed.

Lemma dealNext_unfold (fuel : nat) (salt : option Z) (st : deck) :
  dealNext' (S fuel) salt st =
    if decide (words = []) then Some st
    else
      let st1 := if decide (queue st = []) then resetDeck' st else st in
      let salt' := from_option id (flipKey + correct * 3 + wrong * 7) salt in
      let next := (pop_unused (used st1) (queue st1)).1 in
      let q := (pop_unused (used st1) (queue st1)).2 in
      match next with
      | Str (c :: s) =>
          Some (Deck ({[ next ]} ∪ used st1) q next (pickColor (c :: s) salt') (tick st1))
      | _ =>
          dealNext' fuel (Some salt')
            (resetDeck' (Deck (used st1) q (word st1) (wordColor st1) (tick st1)))
      end.
Proof.
  simpl. destruct (decide (words = [])); [done|].
  destruct (pop_unused _ _) as [next q]. simpl.
  by destruct next as [| |[|c s]].
Qed.

(** A call on an empty queue goes on as a call on the deck shuffled anew. *)
Lemma dealNext_empty_queue (fuel : nat) (salt : option Z) (st : deck) :
  words ≠ [] → queue st = [] →
  dealNext' (S fuel) salt st = dealNext' (S fuel) salt (resetDeck' st).
Proof.
  intros Hne Hq. rewrite !dealNext_unfold.
  destruct (decide (words = [])); [done|].
  destruct (decide (queue st = [])); [|done].
  destruct (decide (queue (resetDeck' st) = [])) as [E|]; [|done].
  rewrite resetDeck_eq in E. by apply new_queue_nonempty in E.
Qed.

(** With an empty used set the first word of a new queue is dealt. *)
Lemma dealNext_new_queue (fuel : nat) (salt : option Z) (st : deck) (n : nat) :
  words ≠ [] → Forall (λ w, w ≠ []) words →
  used st = ∅ → queue st = new_queue' n →
  ∃ w q, new_queue' n = Str w :: q ∧ w ∈ words ∧ w ≠ []
    ∧ dealNext' (S fuel) salt st =
        Some (Deck {[ Str w ]} q (Str w)
                (pickColor w (from_option id (flipKey + correct * 3 + wrong * 7) salt))
                (tick st)).
Proof.
  intros Hne Hall Hu Hq.
  pose proof (new_queue_nonempty n Hne) as Hnq.
  destruct (new_queue' n) as [|v q] eqn:E; [done|].
  assert (Hv : v ∈ new_queue' n) by (rewrite E; by left).
  apply new_queue_elem in Hv as (w & -> & Hw).
  assert (Hw' : w ≠ []) by (by eapply (proj1 (Forall_forall _ _) Hall)).
  exists w, q. split_and!; try done.
  destruct w as [|c s]; [done|].
  rewrite (dealNext_pop fuel salt st c s q Hne).
  - by rewrite Hu, union_empty_r_L.
  - rewrite Hu, Hq. simpl. rewrite decide_False by set_solver. done.
Qed.

(** One call within the call is always enough. *)
Lemma dealNext_two (salt : option Z) (st : deck) :
  words ≠ [] → Forall (λ w, w ≠ []) words →
  is_Some (dealNext' 2 salt st).
Proof.
  intros Hne Hall.
  pose proof (dealNext_unfold 1 salt st) as Hu.
  destruct (decide (words = [])); [done|]. cbv zeta in Hu. rewrite Hu.
  set (st1 := if decide (queue st = []) then resetDeck' st else st).
  set (salt' := from_option id _ salt).
  assert (Hrec : ∀ st2, is_Some (dealNext' 1 (Some salt') (resetDeck' st2))).
  { intros st2. rewrite resetDeck_eq.
    edestruct (dealNext_new_queue 0 (Some salt') (Deck ∅ (new_queue' (tick st2))
                 (word st2) (wordColor st2) (S (tick st2))) (tick st2))
      as (w & q' & _ & _ & _ & ->); try done. }
  destruct (pop_unused (used st1) (queue st1)).1 as [| |[|c s]]; try apply Hrec.
  done.
Qed.

Lemma pop_unused_suffix (U : gset value) (Q : list value) (v : value) :
  v ∈ (pop_unused U Q).2 → v ∈ Q.
Proof.
  induction Q as [|w Q IH]; simpl; [done|].
  destruct (decide (w ∈ U)); simpl; intros Hv; right; auto.
Qed.

(** The queue never holds anything but words of the list. *)
Lemma dealNext_queue_words (fuel : nat) (salt : option Z) (st st' : deck) :
  (∀ v, v ∈ queue st → v ∈ Str <$> words) →
  dealNext' fuel salt st = Some st' →
  ∀ v, v ∈ queue st' → v ∈ Str <$> words.
Proof.
  revert salt st. induction fuel as [|fuel IH]; intros salt st Hq; [done|].
  rewrite dealNext_unfold. destruct (decide (words = [])); [by intros [= <-]|].
  cbv zeta.
  set (st1 := if decide (queue st = []) then resetDeck' st else st).
  assert (Hq1 : ∀ v, v ∈ queue st1 → v ∈ Str <$> words).
  { subst st1. destruct (decide (queue st = [])); [|done].
    rewrite resetDeck_eq. simpl. intros v Hv. by rewrite <- new_queue_perm. }
  destruct (pop_unused (used st1) (queue st1)).1 as [| |[|c s]] eqn:Hnext.
  4: { intros [= <-] v Hv. simpl in Hv. by apply Hq1, pop_unused_suffix with (used st1). }
  all: apply IH; rewrite resetDeck_eq; simpl; intros v Hv;
    by rewrite <- new_queue_perm.
Qed.

(** While the queue holds unused words, successive calls deal them in
    the order of [cycle], with no new shuffle. *)
Lemma deals_cycle (fuel : nat) (salts : list (option Z)) (st : deck) :
  words ≠ [] →
  (∀ v, v ∈ queue st → truthy v = true) →
  (length salts ≤ length (cycle (used st) (queue st)))%nat →
  ∃ st', deals' (S fuel) salts st
           = Some (take (length salts) (cycle (used st) (queue st)), st')
    ∧ used st' = used st ∪ list_to_set (take (length salts) (cycle (used st) (queue st)))
    ∧ tick st' = tick st.
Proof.
  intros Hne. revert st. induction salts as [|salt salts IH]; intros st Htr Hlen.
  - exists st. simpl. split_and!; [done|set_solver|done].
  - assert (Hc : cycle (used st) (queue st) ≠ []).
    { intros E. rewrite E in Hlen. simpl in Hlen. lia. }
    destruct (pop_unused_cycle _ _ Hc) as (Hin & Hsub & Hcyc).
    destruct (pop_unused (used st) (queue st)) as [v q] eqn:Hpop. simpl in *.
    pose proof (Htr v Hin) as Hv. destruct v as [| |[|c s]]; try done.
    pose proof (dealNext_pop fuel salt st c s q Hne Hpop) as Hdeal.
    set (st1 := Deck _ _ _ _ _) in Hdeal.
    destruct (IH st1) as (st' & Hd & Hu & Ht).
    { intros v Hv'. apply Htr, Hsub, Hv'. }
    { rewrite Hcyc in Hlen. simpl in *. lia. }
    exists st'. rewrite Hcyc. simpl in *. split_and!.
    + remember (S fuel) as f eqn:Hf. simpl. subst f.
      rewrite Hdeal. simpl. rewrite Hd. done.
    + rewrite Hu. set_solver.
    + done.
Qed.

End DeckFacts.

(** Why C9 asks for a loaded word list: [if (next)] takes the empty
    string for no word, so with a list of the empty string alone, which
    [loadDict] never returns, every call shuffles anew and calls
    [dealNext] again, and no depth of calls is enough. *)
Lemma dealNext_empty_word (env : nat → clock) (flipKey correct wrong : Z)
    (fuel : nat) (salt : option Z) (st : deck) :
  queue st = [] ∨ queue st = [Str []] →
  dealNext env [[]] flipKey correct wrong fuel salt st = None.
Proof.
  revert salt st. induction fuel as [|fuel IH]; intros salt st Hq; [done|].
  rewrite dealNext_unfold. rewrite decide_False by done. cbv zeta.
  assert (Hnew : ∀ st', queue (resetDeck env [[]] st') = [Str []]) by done.
  set (st1 := if decide (queue st = []) then resetDeck env [[]] st else st).
  assert (Hq1 : queue st1 = [Str []]).
  { subst st1. destruct (decide (queue st = [])) as [E|E]; [done|].
    by destruct Hq. }
  rewrite Hq1. simpl.
  destruct (decide (Str [] ∈ used st1)); simpl; apply IH; by right.
Qed.

(** C9. [dealNext] always terminates.  With an empty word list it returns
    at once.  With a loaded word list that is not empty it calls itself at
    most once: after [resetDeck] the used set is empty and the queue is a
    permutation of the word list, so not empty, and the call on that deck
    deals the first word of the queue without a further call. *)
Theorem dealNext_terminates (env : nat → clock) (words : list jsstring)
    (flipKey correct wrong : Z) (salt : option Z) (st : deck) :
  loaded words →
  (words = [] → dealNext env words flipKey correct wrong 1 salt st = Some st)
  ∧ (words ≠ [] →
       is_Some (dealNext env words flipKey correct wrong 2 salt st)
       ∧ used (resetDeck env words st) = ∅
       ∧ queue (resetDeck env words st) ≡ₚ Str <$> words
       ∧ ∃ w q, queue (resetDeck env words st) = Str w :: q
           ∧ dealNext env words flipKey correct wrong 1 salt (resetDeck env words st)
             = Some (Deck {[ Str w ]} q (Str w)
                       (pickColor w (from_option id (flipKey + correct * 3 + wrong * 7) salt))
                       (S (tick st)))).
Proof.
  intros Hall%loaded_nonempty. split.
  - intros ->. reflexivity.
  - intros Hne. split_and!.
    + by apply dealNext_two.
    + by rewrite resetDeck_eq.
    + rewrite resetDeck_eq. apply new_queue_perm.
    + rewrite resetDeck_eq.
      edestruct (dealNext_new_queue env words flipKey correct wrong 0 salt
                   (Deck ∅ (new_queue env words (tick st)) (word st) (wordColor st)
                      (S (tick st))) (tick st))
        as (w & q & Hq & _ & _ & Hd); try done.
      exists w, q. simpl. by rewrite Hq in *.
Qed.

Lemma dealNext_terminates_witness :
  let words := [w_a; w_b; w_c] in
  loaded words ∧ is_Some (dealNext env0 words 0 0 0 2 None deck0).
Proof.
  intros words. split; [exact loaded_abc|].
  by apply (dealNext_terminates env0 words 0 0 0 None deck0 loaded_abc).
Defined.

(** C4. With a loaded word list that is not empty, a call of [dealNext]
    made when the used set holds every word of the list (the queue holding
    nothing but words of the list) shuffles the deck anew, once, and deals
    the first word of the new queue; the call returns, in any depth of
    calls from two on. *)
Theorem dealNext_after_cycle (env : nat → clock) (words : list jsstring)
    (flipKey correct wrong : Z) (fuel : nat) (salt : option Z) (st : deck) :
  loaded words →
  words ≠ [] →
  (∀ w, w ∈ words → Str w ∈ used st) →
  (∀ v, v ∈ queue st → v ∈ Str <$> words) →
  (2 ≤ fuel)%nat →
  ∃ w q,
    queue (resetDeck env words st) = Str w :: q
    ∧ w ∈ words
    ∧ dealNext env words flipKey correct wrong fuel salt st
      = Some (Deck {[ Str w ]} q (Str w)
                (pickColor w (from_option id (flipKey + correct * 3 + wrong * 7) salt))
                (S (tick st))).
Proof.
  intros Hall%loaded_nonempty Hne Hused Hqueue Hfuel.
  set (salt' := from_option id (flipKey + correct * 3 + wrong * 7) salt).
  destruct (dealNext_new_queue env words flipKey correct wrong 0 salt
              (Deck ∅ (new_queue env words (tick st)) (word st) (wordColor st)
                 (S (tick st))) (tick st)) as (w & q & Hq & Hw & _ & Hd); try done.
  destruct (dealNext_new_queue env words flipKey correct wrong 0 (Some salt')
              (Deck ∅ (new_queue env words (tick st)) (word st) (wordColor st)
                 (S (tick st))) (tick st)) as (w' & q' & Hq' & _ & _ & Hd'); try done.
  rewrite Hq in Hq'. injection Hq' as <- <-.
  exists w, q. rewrite resetDeck_eq. split_and!; [done|done|].
  apply (dealNext_fuel_le env words flipKey correct wrong 2 fuel); [done|].
  destruct (decide (queue st = [])) as [Hempty|Hnonempty].
  - rewrite dealNext_empty_queue, resetDeck_eq by done.
    apply dealNext_fuel. exact Hd.
  - rewrite dealNext_unfold.
    destruct (decide (words = [])); [done|].
    destruct (decide (queue st = [])); [done|]. cbv zeta.
    destruct (pop_unused_spec (used st) (queue st)) as [[-> _]|(sk & HQ & Hn & _)].
    + simpl. rewrite resetDeck_eq. exact Hd'.
    + exfalso. apply Hn.
      assert (Hin : (pop_unused (used st) (queue st)).1 ∈ queue st).
      { rewrite HQ at 2. apply elem_of_app. right. by left. }
      apply Hqueue in Hin. apply list_elem_of_fmap in Hin as (w0 & -> & Hw0).
      by apply Hused.
Qed.

Lemma dealNext_after_cycle_witness :
  let words := [w_a; w_b; w_c] in
  let st := Deck (list_to_set (Str <$> words)) [] (Str w_b) Null 1 in
  ∃ w q,
    queue (resetDeck env0 words st) = Str w :: q
    ∧ w ∈ words
    ∧ dealNext env0 words 0 0 0 2 None st
      = Some (Deck {[ Str w ]} q (Str w) (pickColor w 0) 2).
Proof.
  intros words st.
  apply (dealNext_after_cycle env0 words 0 0 0 2 None st).
  - exact loaded_abc.
  - done.
  - intros w Hw. apply elem_of_list_to_set, list_elem_of_fmap. by exists w.
  - intros v Hv. by apply elem_of_nil in Hv.
  - lia.
Defined.

(** C1, as stated, fails on a list with a repeated word, which
    [loadDict] returns as it finds it.  With the list [a, a, b] the first
    queue is [a, a, b]: of three calls the first deals [a], the second
    skips the other [a] and deals [b], and the third, on an empty queue,
    shuffles anew and deals the first word of the new queue [b, a, a].
    [b] was dealt twice, and the used set holds [b] alone. *)
Lemma full_cycle_counterexample :
  let words := [w_a; w_a; w_b] in
  loaded words
  ∧ queue (resetDeck env0 words deck0) = [Str w_a; Str w_a; Str w_b]
  ∧ new_queue env0 words 1 = [Str w_b; Str w_a; Str w_a]
  ∧ ∃ st',
      deals env0 words 0 0 0 2 [None; None; None] (resetDeck env0 words deck0)
        = Some ([Str w_a; Str w_b; Str w_b], st')
      ∧ ¬ ([Str w_a; Str w_b; Str w_b] ≡ₚ Str <$> words)
      ∧ used st' = {[ Str w_b ]}
      ∧ used st' ≠ list_to_set (Str <$> words).
Proof.
  intros words. split; [exact loaded_aab|].
  split; [vm_compute; reflexivity|].
  split; [vm_compute; reflexivity|].
  eexists. split; [vm_compute; reflexivity|].
  split; [intros HP; apply (bool_decide_pack _) in HP; by vm_compute in HP|].
  match goal with
  | |- used ?s = _ ∧ _ =>
      assert (Hu : used s = {[ Str w_b ]}) by (vm_compute; reflexivity)
  end.
  split; [exact Hu|]. rewrite Hu. intros E.
  assert (Ha : Str w_a ∈ ({[ Str w_b ]} : gset value)).
  { rewrite E. apply elem_of_list_to_set. by left. }
  apply elem_of_singleton in Ha. discriminate Ha.
Qed.

(** C1, amended.  Starting from a deck that [resetDeck] has just made,
    with a loaded word list of [M] distinct words, [M] calls of [dealNext]
    return, shuffle nothing anew and deal every distinct word of the list
    exactly once; afterwards the used set is the set of the words of the
    list.  When no word is repeated in the list, [M] is its length [N] and
    the words dealt are a permutation of the list. *)
Theorem full_cycle (env : nat → clock) (words : list jsstring)
    (flipKey correct wrong : Z) (fuel : nat) (salts : list (option Z)) (st : deck) :
  loaded words →
  (0 < fuel)%nat →
  length salts = length (remove_dups words) →
  ∃ dealt st',
    deals env words flipKey correct wrong fuel salts (resetDeck env words st)
      = Some (dealt, st')
    ∧ dealt ≡ₚ Str <$> remove_dups words
    ∧ used st' = list_to_set (Str <$> words)
    ∧ tick st' = S (tick st)
    ∧ (NoDup words → length salts = length words ∧ dealt ≡ₚ Str <$> words).
Proof.
  intros Hall%loaded_nonempty Hfuel Hlen.
  assert (Hnd : NoDup words → remove_dups words ≡ₚ words).
  { intros Hnd. apply NoDup_Permutation; [apply NoDup_remove_dups|done|].
    intros w. apply elem_of_remove_dups. }
  destruct (decide (words = [])) as [->|Hne].
  - destruct salts; [|done]. exists [], (resetDeck env [] st).
    rewrite resetDeck_eq. simpl. split_and!; try done.
  - destruct fuel as [|fuel]; [lia|].
    pose proof (cycle_new_queue env words (tick st)) as Hcyc.
    assert (Hlen' : length salts = length (cycle ∅ (new_queue env words (tick st)))).
    { rewrite Hcyc, length_fmap. done. }
    destruct (deals_cycle env words flipKey correct wrong fuel salts
                (resetDeck env words st) Hne) as (st' & Hd & Hu & Ht).
    + rewrite resetDeck_eq. simpl. intros v (w & -> & Hw)%new_queue_elem.
      pose proof (proj1 (Forall_forall _ _) Hall w Hw). by destruct w.
    + rewrite resetDeck_eq. simpl. lia.
    + rewrite resetDeck_eq in Hd, Hu, Ht. simpl in Hd, Hu, Ht.
      rewrite take_ge in Hd, Hu by lia.
      eexists _, st'. rewrite resetDeck_eq. split_and!; [exact Hd|done| |done|].
      * rewrite Hu. apply set_eq. intros v.
        rewrite elem_of_union, !elem_of_list_to_set, cycle_elem, new_queue_elem,
          list_elem_of_fmap.
        set_solver.
      * intros HND. split.
        -- by rewrite Hlen, (Hnd HND).
        -- by rewrite Hcyc, (Hnd HND).
Qed.

Lemma full_cycle_witness :
  let words := [w_a; w_a; w_b] in
  loaded words
  ∧ ∃ dealt st',
      deals env0 words 0 0 0 1 [None; None] (resetDeck env0 words deck0)
        = Some (dealt, st')
      ∧ dealt ≡ₚ [Str w_a; Str w_b]
      ∧ used st' = list_to_set (Str <$> words).
Proof.
  intros words. split; [exact loaded_aab|].
  destruct (full_cycle env0 words 0 0 0 1 [None; None] deck0 loaded_aab
              (Nat.lt_0_1) eq_refl)
    as (dealt & st' & Hd & Hp & Hu & _).
  exists dealt, st'. split; [exact Hd|]. split; [exact Hp|exact Hu].
Defined.

(** ** The dictionary loader: errors and the word list *)

(** C5. Loading a dictionary whose [words] field is an empty array, or
    is no array, fails: [loadDict] throws an error and returns no word
    list; when the status of the response is a success the message of the
    error says that the dictionary is empty and names the URL. *)
Theorem loadDict_no_words (net : Dict.network) (url : jsstring)
    (log : list Dict.event) (res : Dict.response) (doc : Dict.json) :
  net url = inr res →
  Dict.body res = inr doc →
  (Dict.prop (lit "words") doc = Some (Dict.JArray [])
   ∨ ∀ l, Dict.prop (lit "words") doc ≠ Some (Dict.JArray l)) →
  ∃ msg,
    (Dict.loadDict net url log).2 = inl (Dict.Error msg)
    ∧ (Dict.ok res = true →
       msg = Dict.dict_empty ++ url).
Proof.
  intros Hnet Hbody Hwords.
  destruct (Dict.ok res) eqn:Hok.
  - rewrite (loadDict_ok net url log res doc Hnet Hok Hbody). cbv zeta.
    assert (Hl : match Dict.prop (lit "words") doc with
                 | Some (Dict.JArray l) => l
                 | _ => []
                 end = []).
    { destruct Hwords as [->|Hno]; [done|].
      destruct (Dict.prop (lit "words") doc) as [[| | | |l|]|]; try done.
      by destruct (Hno l). }
    rewrite Hl. simpl. eauto.
  - rewrite (loadDict_not_ok net url log res Hnet Hok). simpl.
    eexists. split; [reflexivity|done].
Qed.

Lemma loadDict_no_words_witness :
  (Dict.loadDict (always (Dict.Response 200 (inr doc_empty))) url0 []).2
  = inl (Dict.Error (Dict.dict_empty ++ url0)).
Proof.
  destruct (loadDict_no_words (always (Dict.Response 200 (inr doc_empty))) url0 []
              (Dict.Response 200 (inr doc_empty)) doc_empty eq_refl eq_refl
              (or_introl eq_refl)) as (msg & -> & Hmsg).
  by rewrite (Hmsg eq_refl).
Defined.

(** C6. Loading a dictionary from a URL whose response has a status that
    is no success (404, say) fails with an error whose message contains
    the status code in decimal.  The one event of the run is the request:
    the body of the response is not parsed, and the outcome is the same
    whatever the body is. *)
Theorem loadDict_bad_status (net : Dict.network) (url : jsstring)
    (log : list Dict.event) (res : Dict.response) :
  net url = inr res →
  Dict.status res < 200 ∨ 299 < Dict.status res →
  let msg := Dict.load_failed ++ url ++ Dict.paren_l
             ++ Number_toString (Dict.status res) ++ Dict.paren_r in
  Dict.loadDict net url log = (log ++ [Dict.Fetched url], inl (Dict.Error msg))
  ∧ (∃ pre post, msg = pre ++ Number_toString (Dict.status res) ++ post)
  ∧ ∀ body',
      Dict.loadDict (always (Dict.Response (Dict.status res) body')) url log
      = Dict.loadDict net url log.
Proof.
  intros Hnet Hstatus msg.
  assert (Hok : ∀ body', Dict.ok (Dict.Response (Dict.status res) body') = false).
  { intros body'. unfold Dict.ok. simpl. destruct Hstatus.
    - rewrite (proj2 (Z.leb_gt _ _)) by done. done.
    - rewrite (proj2 (Z.leb_gt (Dict.status res) 299)) by done.
      apply andb_false_r. }
  assert (Hres : Dict.ok res = false) by (destruct res; apply Hok).
  rewrite (loadDict_not_ok net url log res Hnet Hres).
  split_and!; [done| |].
  - exists (Dict.load_failed ++ url ++ Dict.paren_l), Dict.paren_r.
    subst msg. by rewrite <- !app_assoc.
  - intros body'.
    by rewrite (loadDict_not_ok _ url log _ eq_refl (Hok body')).
Qed.

Lemma loadDict_bad_status_witness :
  Dict.loadDict (always (Dict.Response 404 (inr doc0))) url0 []
  = ([Dict.Fetched url0],
     inl (Dict.Error (Dict.load_failed ++ url0 ++ Dict.paren_l
                      ++ lit "404" ++ Dict.paren_r))).
Proof.
  assert (H : Dict.status (Dict.Response 404 (inr doc0)) < 200
              ∨ 299 < Dict.status (Dict.Response 404 (inr doc0)))
    by (right; simpl; lia).
  apply (loadDict_bad_status (always (Dict.Response 404 (inr doc0))) url0 []
           (Dict.Response 404 (inr doc0)) eq_refl H).
Defined.

(** C10. [loadDict] normalizes the word list.  Every entry of the [words]
    array is made a string and trimmed: the white space around it goes,
    and what is left neither starts nor ends with white space.  Entries
    that are empty then, those of white space only, are removed.  What
    remains is the list returned, each word of it non-empty and trimmed;
    when nothing remains, as with an array that is not empty and holds
    blank strings only, loading fails with an error.  An entry that
    [String] cannot convert (an object with a field [toString], also as an
    element of an array) makes [loadDict] fail with the [TypeError] of the
    conversion. *)
Theorem loadDict_normalizes (net : Dict.network) (url : jsstring)
    (log : list Dict.event) (res : Dict.response) (doc : Dict.json)
    (entries : list Dict.json) :
  net url = inr res →
  Dict.ok res = true →
  Dict.body res = inr doc →
  Dict.prop (lit "words") doc = Some (Dict.JArray entries) →
  (∀ s, ∃ pre post,
     s = pre ++ Dict.trim s ++ post
     ∧ Dict.blank pre ∧ Dict.blank post
     ∧ Dict.trimmed (Dict.trim s))
  ∧ (∀ s, Dict.trim s = [] ↔ Dict.blank s)
  ∧ match Dict.map_String_trim entries with
    | inr strings =>
        let cleaned := filter (λ w, (0 < length w)%nat) strings in
        Forall2 (λ e t, ∃ s, Dict.String_ e = inr s ∧ t = Dict.trim s)
          entries strings
        ∧ (∀ w, w ∈ cleaned ↔ w ≠ [] ∧ w ∈ strings)
        ∧ Forall (λ w, w ≠ [] ∧ Dict.trimmed w) cleaned
        ∧ match (Dict.loadDict net url log).2 with
          | inr d => Dict.words d = cleaned ∧ cleaned ≠ []
          | inl e =>
              cleaned = []
              ∧ e = Dict.Error (Dict.dict_empty ++ url)
          end
    | inl x =>
        x = Dict.TypeError Dict.cannot_convert
        ∧ (∃ e, e ∈ entries ∧ Dict.String_ e = inl x)
        ∧ (Dict.loadDict net url log).2 = inl x
    end
  ∧ ((∀ e, e ∈ entries → ∃ s, Dict.String_ e = inr s ∧ Dict.blank s) →
     (Dict.loadDict net url log).2
     = inl (Dict.Error (Dict.dict_empty ++ url))).
Proof.
  intros Hnet Hok Hbody Hwords.
  pose proof (loadDict_ok net url log res doc Hnet Hok Hbody) as Hload.
  rewrite Hwords in Hload. cbv zeta in Hload.
  split_and!.
  - intros s. apply trim_spec.
  - intros s. apply trim_nil_iff.
  - destruct (Dict.map_String_trim entries) as [x|strings] eqn:Hs.
    + destruct (map_String_trim_inl entries x Hs) as (e & He & Ee).
      split_and!; [by apply (String_throws e)|by exists e|by rewrite Hload].
    + cbv zeta. split_and!.
      * by apply map_String_trim_inr.
      * intros w. rewrite list_elem_of_filter. split.
        -- intros [Hlen Hw]. split; [|done].
           intros E. rewrite E in Hlen. simpl in Hlen. lia.
        -- intros [Hw Hin]. split; [|done]. destruct w; [done|simpl; lia].
      * by apply (map_String_trim_trimmed entries).
      * rewrite Hload. simpl.
        destruct (decide (length (filter _ strings) = 0%nat)) as [E|E].
        -- split; [|done]. by apply length_zero_iff_nil.
        -- split; [done|]. intros E'. by rewrite E' in E.
  - intros Hblank. rewrite Hload.
    destruct (cleaned_nil entries Hblank) as (strings & -> & Hnil).
    simpl. rewrite decide_True; [done|]. by rewrite Hnil.
Qed.

Lemma loadDict_normalizes_witness :
  (∃ d, (Dict.loadDict (always (Dict.Response 200 (inr doc0))) url0 []).2 = inr d
        ∧ Dict.words d = [lit "a b"; lit "null"; lit "7"])
  ∧ (Dict.loadDict (always (Dict.Response 200 (inr doc_blank))) url0 []).2
    = inl (Dict.Error (Dict.dict_empty ++ url0))
  ∧ (Dict.loadDict (always (Dict.Response 200 (inr doc_toString))) url0 []).2
    = inl (Dict.TypeError Dict.cannot_convert).
Proof.
  split_and!.
  - destruct (loadDict_normalizes (always (Dict.Response 200 (inr doc0))) url0 []
                (Dict.Response 200 (inr doc0)) doc0 _ eq_refl eq_refl eq_refl eq_refl)
      as (_ & _ & Hres & _).
    cbv zeta in Hres. destruct Hres as (_ & _ & _ & Hres).
    destruct (Dict.loadDict _ _ _).2 as [e|d].
    + destruct Hres as [Hnil _]. discriminate Hnil.
    + exists d. split; [reflexivity|]. by destruct Hres as [-> _].
  - apply (loadDict_normalizes (always (Dict.Response 200 (inr doc_blank))) url0 []
             (Dict.Response 200 (inr doc_blank)) doc_blank _ eq_refl eq_refl eq_refl
             eq_refl).
    intros e He.
    repeat (apply elem_of_cons in He as [->|He]);
      [eexists; split; [reflexivity|by repeat constructor]..|].
    by apply elem_of_nil in He.
  - destruct (loadDict_normalizes (always (Dict.Response 200 (inr doc_toString)))
                url0 [] (Dict.Response 200 (inr doc_toString)) doc_toString _
                eq_refl eq_refl eq_refl eq_refl)
      as (_ & _ & Hres & _).
    destruct Hres as (-> & _ & Hres). exact Hres.
Defined.

(** * Further properties *)

(** ** One call of [dealNext] *)

Section DealFacts.
Context (env : nat → clock) (words : list jsstring) (flipKey correct wrong : Z).

(** A call that returns has dealt an unused word of the queue, or has
    shuffled anew, once, and dealt the first word of the new queue. *)
Lemma dealNext_cases (fuel : nat) (salt : option Z) (st st' : deck) :
  loaded words → words ≠ [] →
  dealNext env words flipKey correct wrong fuel salt st = Some st' →
  let salt' := from_option id (flipKey + correct * 3 + wrong * 7) salt in
  (∃ c s q,
     pop_unused (used st) (queue st) = (Str (c :: s), q)
     ∧ st' = Deck ({[ Str (c :: s) ]} ∪ used st) q (Str (c :: s))
               (pickColor (c :: s) salt') (tick st))
  ∨ (∃ w q,
       new_queue env words (tick st) = Str w :: q ∧ w ∈ words
       ∧ st' = Deck {[ Str w ]} q (Str w) (pickColor w salt') (S (tick st))).
Proof.
  intros Hall%loaded_nonempty Hne Hd salt'.
  destruct fuel as [|fuel]; [done|].
  destruct (decide (queue st = [])) as [Hq|Hq].
  - right. rewrite (dealNext_empty_queue env words flipKey correct wrong fuel salt st Hne Hq) in Hd.
    rewrite resetDeck_eq in Hd.
    destruct (dealNext_new_queue env words flipKey correct wrong fuel salt
                (Deck ∅ (new_queue env words (tick st)) (word st) (wordColor st)
                   (S (tick st))) (tick st) Hne Hall eq_refl eq_refl)
      as (w & q & Hnq & Hw & _ & Hd').
    pose proof (eq_trans (eq_sym Hd) Hd') as E. injection E as ->.
    by exists w, q.
  - rewrite dealNext_unfold in Hd.
    destruct (decide (words = [])); [done|].
    destruct (decide (queue st = [])); [done|]. cbv zeta in Hd.
    destruct (pop_unused (used st) (queue st)) as [next q] eqn:Hpop.
    simpl in Hd.
    assert (Hrec : dealNext env words flipKey correct wrong fuel (Some salt')
                     (resetDeck env words
                        (Deck (used st) q (word st) (wordColor st) (tick st)))
                   = Some st' →
                   ∃ w q0, new_queue env words (tick st) = Str w :: q0 ∧ w ∈ words
                     ∧ st' = Deck {[ Str w ]} q0 (Str w) (pickColor w salt')
                               (S (tick st))).
    { intros Hd2. destruct fuel as [|fuel]; [done|].
      rewrite resetDeck_eq in Hd2. simpl in Hd2.
      destruct (dealNext_new_queue env words flipKey correct wrong fuel (Some salt')
                  (Deck ∅ (new_queue env words (tick st)) (word st) (wordColor st)
                     (S (tick st))) (tick st) Hne Hall eq_refl eq_refl)
        as (w & q0 & Hnq & Hw & _ & Hd').
      pose proof (eq_trans (eq_sym Hd2) Hd') as E. injection E as ->.
      by exists w, q0. }
    destruct next as [| |[|c s]]; [right; auto..|].
    left. injection Hd as <-. by exists c, s, q.
Qed.

(** The word that the [while] loop finds is in the queue. *)
Lemma pop_unused_found (U : gset value) (Q : list value) (c : N) (s : jsstring)
    (q : list value) :
  pop_unused U Q = (Str (c :: s), q) →
  Str (c :: s) ∈ Q ∧ Str (c :: s) ∉ U.
Proof.
  intros Hpop. destruct (pop_unused_spec U Q) as [[E _]|(sk & HQ & Hn & _)].
  - rewrite E in Hpop. discriminate.
  - rewrite Hpop in HQ, Hn. simpl in *. split; [|done].
    rewrite HQ. apply elem_of_app. right. by left.
Qed.

Lemma pickColor_nonneg (w : jsstring) (salt : Z) :
  0 ≤ salt → ∃ c, c ∈ WORD_COLORS ∧ pickColor w salt = Str c.
Proof.
  intros Hsalt. unfold pickColor.
  assert (Hh : 0 ≤ hashStringToInt w) by apply ushr_0_range.
  pose proof (add_int_nonneg _ _ Hh Hsalt) as Hsum.
  change (Z.of_nat (length WORD_COLORS)) with 10.
  pose proof (Z.rem_bound_pos (add_int (hashStringToInt w) salt) 10) as Hb.
  destruct (Z.ltb_spec (Z.rem (add_int (hashStringToInt w) salt) 10) 0) as [|_]; [lia|].
  destruct (WORD_COLORS !! Z.to_nat (Z.rem (add_int (hashStringToInt w) salt) 10))
    as [c|] eqn:E.
  - exists c. split; [|done]. by eapply list_elem_of_lookup_2.
  - apply lookup_ge_None in E. change (length WORD_COLORS) with 10%nat in E. lia.
Qed.

(** What a call keeps: the used set and the queue hold words of the list
    only, the word displayed is in the used set, and the colour is one of
    the table when the salt is not negative. *)
Lemma dealNext_keeps (fuel : nat) (salt : option Z) (st st' : deck) :
  loaded words → words ≠ [] →
  (∀ v, v ∈ used st → v ∈ Str <$> words) →
  (∀ v, v ∈ queue st → v ∈ Str <$> words) →
  0 ≤ from_option id (flipKey + correct * 3 + wrong * 7) salt →
  dealNext env words flipKey correct wrong fuel salt st = Some st' →
  (∀ v, v ∈ used st' → v ∈ Str <$> words)
  ∧ (∀ v, v ∈ queue st' → v ∈ Str <$> words)
  ∧ (∃ w, word st' = Str w ∧ Str w ∈ used st')
  ∧ ∃ c, c ∈ WORD_COLORS ∧ wordColor st' = Str c.
Proof.
  intros Hl Hne Hu Hq Hsalt Hd.
  destruct (dealNext_cases fuel salt st st' Hl Hne Hd)
    as [(c & s & q & Hpop & ->)|(w & q & Hnq & Hw & ->)]; simpl.
  - destruct (pop_unused_found _ _ _ _ _ Hpop) as [Hin _].
    split_and!.
    + intros v [->%elem_of_singleton|Hv]%elem_of_union; auto.
    + intros v Hv. apply Hq. apply (pop_unused_suffix (used st)).
      by rewrite Hpop.
    + exists (c :: s). split; [done|]. apply elem_of_union. left.
      by apply elem_of_singleton.
    + by apply pickColor_nonneg.
  - assert (Hsub : ∀ v, v ∈ Str w :: q → v ∈ Str <$> words).
    { intros v Hv. rewrite <- Hnq in Hv. by rewrite <- (new_queue_perm env words (tick st)). }
    split_and!.
    + intros v ->%elem_of_singleton. apply Hsub. by left.
    + intros v Hv. apply Hsub. by right.
    + exists w. split; [done|]. by apply elem_of_singleton.
    + by apply pickColor_nonneg.
Qed.

End DealFacts.

(** ** The component *)


(** A used set of words of the list has no more members than the list
    has distinct words. *)
Lemma used_size (words : list jsstring) (U : gset value) :
  (∀ v, v ∈ U → v ∈ Str <$> words) →
  (size U ≤ length (remove_dups words))%nat.
Proof.
  intros HU.
  assert (Hsub : U ⊆ list_to_set (Str <$> remove_dups words)).
  { intros v Hv. apply elem_of_list_to_set.
    apply HU, list_elem_of_fmap in Hv as (w & -> & Hw).
    apply list_elem_of_fmap. exists w. by rewrite elem_of_remove_dups. }
  apply subseteq_size in Hsub.
  rewrite size_list_to_set in Hsub
    by (apply (NoDup_fmap_2 _), NoDup_remove_dups).
  by rewrite length_fmap in Hsub.
Qed.

(** A call of [dealNext] on a loaded list returns. *)
Lemma dealNext_returns (env : nat → clock) (words : list jsstring)
    (flipKey correct wrong : Z) (fuel : nat) (salt : option Z) (st : deck) :
  loaded words → (2 ≤ fuel)%nat →
  is_Some (dealNext env words flipKey correct wrong fuel salt st).
Proof.
  intros Hl Hfuel. destruct (decide (words = [])) as [->|Hne].
  - destruct fuel as [|fuel]; [lia|]. by exists st.
  - destruct (dealNext_two env words flipKey correct wrong salt st Hne
                (loaded_nonempty _ Hl)) as [st' Hst'].
    exists st'. by eapply dealNext_fuel_le.
Qed.

Section AppFacts.
Context (env : nat → clock).
Import App.

Lemma words_effect_nonempty (words : list jsstring) (d : deck) :
  words ≠ [] → words_effect env words d = resetDeck env words d.
Proof. intros H. unfold words_effect. by destruct words. Qed.

Lemma invariant_initial : invariant initial.
Proof.
  unfold invariant. simpl. split_and!; try done.
  - by left.
  - eexists. split; [done|]. by left.
Qed.

Lemma invariant_chooseDict net label url s log :
  invariant s → invariant (chooseDict env net label url s log).1.
Proof.
  intros Hs. unfold chooseDict.
  destruct (Dict.loadDict net url log) as [log' [e|data]] eqn:E; simpl; [done|].
  destruct (loadDict_words net url log log' data E) as [Hne _].
  destruct Hs as (_ & _ & _ & _ & _ & _ & (_ & _ & Hk) & Hcol).
  unfold invariant. simpl. rewrite words_effect_nonempty, resetDeck_eq by done.
  simpl. split_and!; try done.
  - right. exists net, url, log, data. by rewrite E.
  - intros v Hv. by rewrite <- (new_queue_perm env (Dict.words data) (tick (cards s))).
  - intros _. split_and!; try done. apply new_queue_perm.
  - lia.
Qed.

Lemma invariant_onRestart s : invariant s → invariant (onRestart env s).
Proof.
  intros (Hl & Hlab & _ & _ & _ & _ & (_ & _ & Hk) & Hcol).
  unfold onRestart, toStartScreen, invariant. simpl.
  destruct (words s) as [|w ws] eqn:Hw; simpl.
  - split_and!; try done. lia.
  - rewrite resetDeck_eq. simpl. split_and!; try done.
    + intros v Hv. by rewrite <- (new_queue_perm env (w :: ws) (tick (cards s))).
    + intros _. split_and!; try done. apply new_queue_perm.
    + lia.
Qed.

Lemma invariant_onStart fuel s s' :
  invariant s → onStart env fuel s = Some s' → invariant s'.
Proof.
  intros Hs. unfold onStart.
  destruct (words s) as [|w ws] eqn:Hw; simpl; [by intros [= <-]|].
  destruct (dealNext _ _ _ _ _ _ _ _) as [d|] eqn:Hd; simpl; [|done].
  intros [= <-].
  destruct Hs as (Hl & Hlab & _ & _ & _ & _ & (_ & _ & Hk) & _).
  rewrite Hw in Hl, Hlab.
  destruct (dealNext_keeps env (w :: ws) (flipKey s) (correct s) (wrong s) fuel
              (Some 1) (resetDeck env (w :: ws) (cards s)) d Hl) as
    (Hu & Hq & Hword & c & Hc & Hcol); try done.
  - rewrite resetDeck_eq. simpl. by intros v ?%elem_of_empty.
  - rewrite resetDeck_eq. simpl. intros v Hv.
    by rewrite <- (new_queue_perm env (w :: ws) (tick (cards s))).
  - unfold invariant. simpl. split_and!; try done.
    + intros _. split_and!; try done. by exists c.
    + lia.
    + exists c. split; [done|]. by right.
Qed.

Lemma invariant_onAnswer fuel b s s' :
  invariant s → onAnswer env fuel b s = Some s' → invariant s'.
Proof.
  intros Hs. unfold onAnswer.
  destruct (started s) eqn:Hst; simpl; [|by intros [= <-]].
  destruct (dealNext _ _ _ _ _ _ _ _) as [d|] eqn:Hd; simpl; [|done].
  intros [= <-].
  destruct Hs as (Hl & Hlab & Hu & Hq & Hplay & _ & (Hc & Hw & Hk) & _).
  destruct (Hplay Hst) as [Hne _].
  destruct (dealNext_keeps env (words s) (flipKey s) (correct s) (wrong s) fuel
              None (cards s) d Hl Hne Hu Hq) as
    (Hu' & Hq' & Hword & c & Hcc & Hcol); [simpl; lia|done|].
  unfold invariant. simpl. split_and!; try done.
  - intros _. split_and!; try done. by exists c.
  - destruct b; lia.
  - destruct b; lia.
  - lia.
  - exists c. split; [done|]. by right.
Qed.

Lemma serial_invariant s : serial env s → invariant s.
Proof.
  induction 1 as [|net label url s log _ IH|fuel s s' _ IH Hs|s _ IH
                 |fuel b s s' _ IH Hs].
  - apply invariant_initial.
  - by apply invariant_chooseDict.
  - by eapply invariant_onStart.
  - by apply invariant_onRestart.
  - by eapply invariant_onAnswer.
Qed.

(** *** Renderings *)

#[local] Ltac fields :=
  cbn [render foldl apply with_refs click_onRestart click_toStartScreen
       click_chooseDict words_effect seen queued effect loads
       dictLabel dictName words loading errMsg started correct wrong flipKey
       cards used queue word wordColor tick fst snd length Nat.eqb negb andb
       initial] in *.

Lemma render_app (us1 us2 : list update) (s : state) :
  render (us1 ++ us2) s = render us2 (render us1 s).
Proof. apply foldl_app. Qed.

Lemma batch_ok_nil : batch_ok [].
Proof. by intros s. Qed.

Lemma batch_ok_app (us1 us2 : list update) :
  batch_ok us1 → batch_ok us2 → batch_ok (us1 ++ us2).
Proof. intros H1 H2 s Hs. rewrite render_app. by apply H2, H1. Qed.

Lemma rendered_ok_with_refs (d : deck) (s : state) :
  rendered_ok s → rendered_ok (with_refs d s).
Proof. done. Qed.

(** A rendering that applies no [setWords] keeps the words. *)
Lemma render_words (us : list update) (s : state) :
  sets_words us = false → words (render us s) = words s.
Proof.
  revert s. induction us as [|u us IH]; intros s; [done|].
  cbn [sets_words existsb]. intros [Hu Hus]%orb_false_elim.
  change (words (render us (apply u s)) = words s).
  rewrite (IH _ Hus). by destruct u.
Qed.

(** One that applies a [setWords] has the words of the last one. *)
Lemma render_words_last (us : list update) (s : state) :
  Forall (λ u, ∀ l, u = setWords l → l ≠ []) us →
  sets_words us = true → words (render us s) ≠ [].
Proof.
  revert s. induction us as [|u us IH]; intros s HF; [done|].
  apply Forall_cons in HF as [Hu HF].
  change (render (u :: us) s) with (render us (apply u s)).
  destruct (sets_words us) eqn:Hus; [intros _; by apply IH|].
  cbn [sets_words existsb]. fold (sets_words us). rewrite Hus, orb_false_r.
  intros Hsw. rewrite (render_words _ _ Hus).
  destruct u; try done. fields. by apply Hu.
Qed.

(** The refs are what the handlers write; a rendering leaves them. *)
Lemma render_refs (us : list update) (s : state) :
  used (cards (render us s)) = used (cards s)
  ∧ queue (cards (render us s)) = queue (cards s)
  ∧ tick (cards (render us s)) = tick (cards s).
Proof.
  revert s. induction us as [|u us IH]; intros s; [done|].
  change (render (u :: us) s) with (render us (apply u s)).
  destruct (IH (apply u s)) as (-> & -> & ->). by destruct u.
Qed.

(** *** The updates of the handlers *)

Lemma batch_ok_click_chooseDict : batch_ok click_chooseDict.
Proof. by intros s. Qed.

Lemma batch_ok_resume_chooseDict label net url log s s' us :
  resume_chooseDict label (Dict.loadDict net url log).2 s = (s', us) →
  batch_ok us ∧ Forall (λ u, ∀ l, u = setWords l → l ≠ []) us.
Proof.
  unfold resume_chooseDict.
  destruct (Dict.loadDict net url log) as [log' [e|data]] eqn:E; cbn [snd].
  - intros [= _ <-]. split; [by intros s0|].
    repeat constructor; by intros l.
  - intros [= _ <-].
    destruct (loadDict_words net url log log' data E) as [Hne _]. split.
    + intros s0 (_ & _ & _ & (_ & _ & Hk) & Hcol).
      unfold rendered_ok. fields. split_and!; try done; [|lia].
      right. exists net, url, log, data. by rewrite E.
    + repeat constructor; try (by intros l). by intros l [= <-].
Qed.

Lemma batch_ok_click_toStartScreen reshuffle s :
  batch_ok (click_toStartScreen env reshuffle s).2.
Proof.
  intros s0 (Hl & Hlab & _ & (_ & _ & Hk) & Hcol).
  unfold rendered_ok. fields. split_and!; try done. lia.
Qed.

Lemma loaded_word_nonempty (w : jsstring) : loaded_word w → w ≠ [].
Proof.
  intros (ws & Hl & Hw). by apply (proj1 (Forall_forall _ _) (loaded_nonempty _ Hl)).
Qed.

Lemma queue_ok_words (words : list jsstring) (d : deck) :
  loaded words → (∀ v, v ∈ queue d → v ∈ Str <$> words) → queue_ok d.
Proof.
  intros Hl Hq v (w & -> & Hw)%Hq%list_elem_of_fmap.
  exists w. split; [done|]. by exists words.
Qed.

Lemma queue_ok_resetDeck (words : list jsstring) (d : deck) :
  loaded words → queue_ok (resetDeck env words d).
Proof.
  intros Hl. apply (queue_ok_words words); [done|].
  rewrite resetDeck_eq. cbn [queue]. intros v Hv.
  by rewrite <- (new_queue_perm env words (tick d)).
Qed.

(** What a call of [dealNext] puts on display, on a list that is not
    empty: a loaded word and a colour of the table. *)
Lemma dealNext_shows (words : list jsstring) (flipKey correct wrong : Z)
    (fuel : nat) (salt : option Z) (st d : deck) :
  loaded words → words ≠ [] →
  0 ≤ from_option id (flipKey + correct * 3 + wrong * 7) salt →
  queue_ok st →
  dealNext env words flipKey correct wrong fuel salt st = Some d →
  (∃ w, word d = Str w ∧ w ≠ [] ∧ loaded_word w)
  ∧ (∃ c, c ∈ WORD_COLORS ∧ wordColor d = Str c)
  ∧ queue_ok d.
Proof.
  intros Hl Hne Hsalt Hq Hd.
  destruct (dealNext_cases env words flipKey correct wrong fuel salt st d Hl Hne Hd)
    as [(c & w & q & Hpop & ->)|(w & q & Hnq & Hw & ->)]; cbn [word wordColor].
  - destruct (pop_unused_found _ _ _ _ _ Hpop) as (Hin & _).
    destruct (Hq _ Hin) as (w' & [= <-] & Hw'). split_and!.
    + by exists (c :: w).
    + by apply pickColor_nonneg.
    + intros v Hv. apply Hq, (pop_unused_suffix (used st)). by rewrite Hpop.
  - assert (Hlw : ∀ w', w' ∈ words → loaded_word w') by (intros w' ?; by exists words).
    split_and!.
    + exists w. split_and!; [done|by apply loaded_word_nonempty, Hlw|by apply Hlw].
    + by apply pickColor_nonneg.
    + apply (queue_ok_words words); [done|]. cbn [queue]. intros v Hv.
      rewrite <- (new_queue_perm env words (tick st)), Hnq. by right.
Qed.

(** *** The invariant of the runs *)

Lemma run_invariant_mount : run_invariant (Component initial [] true []).
Proof.
  split_and!.
  - unfold rendered_ok. fields. split_and!; try done; [by left|].
    eexists. split; [done|]. by left.
  - apply batch_ok_nil.
  - constructor.
  - by intros v ?%elem_of_nil.
  - right. fields. split; [by intros v ?%elem_of_empty|by intros v ?%elem_of_nil].
Qed.

(** A handler leaves what was rendered and adds to the queue. *)
Lemma run_invariant_handler c s us (l : list (jsstring * jsstring)) :
  run_invariant c →
  words s = words (seen c) →
  rendered_ok s →
  batch_ok us →
  Forall (λ u, ∀ l, u = setWords l → l ≠ []) us →
  queue_ok (cards s) →
  ((∀ v, v ∈ used (cards (seen c)) → v ∈ Str <$> words (seen c))
   ∧ (∀ v, v ∈ queue (cards (seen c)) → v ∈ Str <$> words (seen c)) →
   (∀ v, v ∈ used (cards s) → v ∈ Str <$> words s)
   ∧ (∀ v, v ∈ queue (cards s) → v ∈ Str <$> words s)) →
  run_invariant (Component s (queued c ++ us) (effect c) l).
Proof.
  intros (_ & Hb & Hw & _ & Hr) Hwords Hs Hus Hws Hq Hrefs.
  split_and!; cbn [seen queued effect]; try done.
  - by apply batch_ok_app.
  - by apply Forall_app.
  - destruct Hr as [[He Hne]|Hr]; [left|right; by apply Hrefs].
    cbn [seen effect]. by rewrite Hwords.
Qed.

Lemma run_invariant_click_chooseDict c l :
  run_invariant c →
  run_invariant (Component (seen c) (queued c ++ click_chooseDict) (effect c) l).
Proof.
  intros Hc. pose proof Hc as (Hs & _ & _ & Hq & _).
  apply run_invariant_handler; try done.
  - apply batch_ok_click_chooseDict.
  - repeat constructor; by intros ?.
Qed.

Lemma run_invariant_resume_chooseDict c label net url log s us l :
  run_invariant c →
  resume_chooseDict label (Dict.loadDict net url log).2 (seen c) = (s, us) →
  run_invariant (Component s (queued c ++ us) (effect c) l).
Proof.
  intros Hc Hr. pose proof Hc as (Hs & _ & _ & Hq & _).
  destruct (batch_ok_resume_chooseDict _ _ _ _ _ _ _ Hr) as [Hb Hw].
  unfold resume_chooseDict in Hr.
  destruct (Dict.loadDict net url log).2 as [e|data]; injection Hr as <- <-;
    apply run_invariant_handler; try done.
  - by intros v ?%elem_of_nil.
  - intros _. fields. split; [by intros v ?%elem_of_empty|by intros v ?%elem_of_nil].
Qed.

Lemma run_invariant_click_onRestart c l :
  run_invariant c →
  run_invariant (Component (click_onRestart env (seen c)).1
                   (queued c ++ (click_onRestart env (seen c)).2) (effect c) l).
Proof.
  intros Hc. pose proof Hc as ((Hl & Hrest) & _ & _ & Hq & _).
  apply run_invariant_handler; try done.
  - apply batch_ok_click_toStartScreen.
  - repeat constructor; by intros ?.
  - unfold click_onRestart, click_toStartScreen. fields.
    destruct (words (seen c)) as [|w ws] eqn:Hw; fields.
    + by intros v ?%elem_of_nil.
    + rewrite <- Hw in *. by apply (queue_ok_resetDeck _ _ Hl).
  - intros _. unfold click_onRestart, click_toStartScreen. fields.
    destruct (words (seen c)) as [|w ws] eqn:Hw; fields.
    + split; [by intros v ?%elem_of_empty|by intros v ?%elem_of_nil].
    + rewrite resetDeck_eq. fields. split; [by intros v ?%elem_of_empty|].
      intros v Hv. by rewrite <- (new_queue_perm env (w :: ws) (tick (cards (seen c)))).
Qed.

Lemma run_invariant_click_onStart c fuel s us l :
  run_invariant c →
  click_onStart env fuel (seen c) = Some (s, us) →
  run_invariant (Component s (queued c ++ us) (effect c) l).
Proof.
  intros Hc Hclick. pose proof Hc as (Hs & _ & _ & Hq & _).
  pose proof Hs as (Hl & _).
  unfold click_onStart in Hclick.
  destruct (words (seen c)) as [|w ws] eqn:Hw; cbn [length Nat.eqb] in Hclick.
  { injection Hclick as <- <-. apply run_invariant_handler; try done.
    apply batch_ok_nil. }
  destruct (dealNext _ _ _ _ _ _ _ _) as [d|] eqn:Hd in Hclick; [|done].
  assert (Hne : w :: ws ≠ []) by done.
  assert (Hsalt : 0 ≤ from_option id (flipKey (seen c) + correct (seen c) * 3
                                      + wrong (seen c) * 7) (Some 1))
    by (simpl; lia).
  destruct (dealNext_shows _ _ _ _ _ _ _ _ Hl Hne Hsalt
              (queue_ok_resetDeck _ _ Hl) Hd) as ((w' & Ew & Hw') & (col & Hcol & Ec) & Hqd).
  assert (Hu0 : ∀ v, v ∈ used (resetDeck env (w :: ws) (cards (seen c))) →
                     v ∈ Str <$> w :: ws).
  { rewrite resetDeck_eq. by intros v ?%elem_of_empty. }
  assert (Hq0 : ∀ v, v ∈ queue (resetDeck env (w :: ws) (cards (seen c))) →
                     v ∈ Str <$> w :: ws).
  { rewrite resetDeck_eq. fields. intros v Hv.
    by rewrite <- (new_queue_perm env (w :: ws) (tick (cards (seen c)))). }
  destruct (dealNext_keeps env _ _ _ _ _ _ _ _ Hl Hne Hu0 Hq0 Hsalt Hd)
    as (Hu' & Hq' & _).
  cbn [mbind option_bind] in Hclick. injection Hclick as <- <-.
  apply run_invariant_handler; try done.
  - intros s0 (Hl0 & Hlab0 & _ & (_ & _ & Hk0) & _).
    unfold rendered_ok. fields. rewrite Ew, Ec. split_and!; try done.
    + intros _. split; [by exists w'|by exists col].
    + lia.
    + exists col. split; [done|]. by right.
  - repeat constructor; by intros ?.
  - fields. by rewrite Hw.
Qed.

Lemma run_invariant_click_onAnswer c fuel b s us l :
  run_invariant c →
  click_onAnswer env fuel b (seen c) = Some (s, us) →
  run_invariant (Component s (queued c ++ us) (effect c) l).
Proof.
  intros Hc Hclick. pose proof Hc as (Hs & _ & _ & Hq & _).
  pose proof Hs as (Hl & _ & _ & (Hcr & Hwr & Hk) & _).
  unfold click_onAnswer in Hclick.
  destruct (started (seen c)); cbn [negb] in Hclick.
  2: { injection Hclick as <- <-. apply run_invariant_handler; try done.
       apply batch_ok_nil. }
  destruct (dealNext _ _ _ _ _ _ _ _) as [d|] eqn:Hd in Hclick; [|done].
  injection Hclick as <- <-.
  assert (Hinc : batch_ok [if b then incCorrect else incWrong; incFlipKey]).
  { intros s0 (Hl0 & Hlab0 & Hst0 & (Hc0 & Hw0 & Hk0) & Hcol0).
    unfold rendered_ok. destruct b; fields; split_and!; try done; lia. }
  destruct (words (seen c)) as [|w ws] eqn:Hw; cbn [length Nat.eqb].
  { destruct fuel as [|fuel]; [done|]. injection Hd as <-.
    apply run_invariant_handler; try done.
    repeat constructor; destruct b; by intros ?. }
  rewrite <- Hw in *. assert (Hne : words (seen c) ≠ []) by (by rewrite Hw).
  assert (Hsalt : 0 ≤ from_option id (flipKey (seen c) + correct (seen c) * 3
                                      + wrong (seen c) * 7) None)
    by (simpl; lia).
  destruct (dealNext_shows _ _ _ _ _ _ _ _ Hl Hne Hsalt Hq Hd)
    as ((w' & Ew & Hw') & (col & Hcol & Ec) & Hqd).
  apply run_invariant_handler; try done.
  - apply (batch_ok_app [_; _] [_; _]); [done|].
    intros s0 (Hl0 & Hlab0 & _ & (Hc0 & Hw0 & Hk0) & _).
    unfold rendered_ok. fields. rewrite Ew, Ec. split_and!; try done.
    + intros _. split; [by exists w'|by exists col].
    + exists col. split; [done|]. by right.
  - repeat constructor; destruct b; by intros ?.
  - intros [Hu0 Hq0].
    destruct (dealNext_keeps env _ _ _ _ _ _ _ _ Hl Hne Hu0 Hq0 Hsalt Hd)
      as (Hu' & Hq' & _).
    by split.
Qed.

Lemma run_invariant_render c :
  run_invariant c → effect c = false →
  run_invariant (Component (render (queued c) (seen c)) [] (sets_words (queued c))
                   (loads c)).
Proof.
  intros (Hs & Hb & Hw & Hq & Hr) He.
  destruct (render_refs (queued c) (seen c)) as (Eu & Eq & _).
  split_and!; cbn [seen queued effect].
  - by apply Hb.
  - apply batch_ok_nil.
  - constructor.
  - unfold queue_ok. by rewrite Eq.
  - destruct (sets_words (queued c)) eqn:Hsw.
    + left. split; [done|]. by apply render_words_last.
    + right. destruct Hr as [[Ht _]|Hr]; [congruence|].
      cbn [seen]. by rewrite Eu, Eq, (render_words _ _ Hsw).
Qed.

Lemma run_invariant_effect c :
  run_invariant c → effect c = true →
  run_invariant (Component
                   (with_refs (words_effect env (words (seen c)) (cards (seen c)))
                      (seen c))
                   (queued c) false (loads c)).
Proof.
  intros (Hs & Hb & Hw & Hq & Hr) He. pose proof Hs as (Hl & _).
  split_and!; cbn [seen queued effect]; try done.
  - unfold words_effect. destruct (words (seen c)) as [|w ws] eqn:Ew; fields; [done|].
    rewrite <- Ew in *. by apply (queue_ok_resetDeck _ _ Hl).
  - right. unfold words_effect. fields.
    destruct (words (seen c)) as [|w ws] eqn:Ew; fields.
    + destruct Hr as [[_ Hne]|Hr]; [by rewrite Ew in Hne|]. by rewrite Ew in Hr.
    + rewrite resetDeck_eq. fields. split; [by intros v ?%elem_of_empty|].
      intros v Hv. by rewrite <- (new_queue_perm env (w :: ws) (tick (cards (seen c)))).
Qed.

Lemma run_run_invariant c : run env c → run_invariant c.
Proof.
  induction 1 as [|c label url _ IH|c before label url after net log s us _ IH Hl Hr
                 |c fuel s us _ IH Hs|c _ IH|c fuel b s us _ IH Hs
                 |c _ IH He|c _ IH He].
  - apply run_invariant_mount.
  - by apply run_invariant_click_chooseDict.
  - by eapply run_invariant_resume_chooseDict.
  - by eapply run_invariant_click_onStart.
  - by apply run_invariant_click_onRestart.
  - by eapply run_invariant_click_onAnswer.
  - by apply run_invariant_render.
  - by apply run_invariant_effect.
Qed.

Lemma reachable_rendered_ok s : reachable env s → rendered_ok s.
Proof. intros (c & Hc%run_run_invariant & <-). apply Hc. Qed.

(** *** The handlers rendered at once

    The functions of the first part are the handlers followed by a
    rendering, and by the effect where it is due, from a point where
    nothing is queued. *)

Lemma toStartScreen_rendered reshuffle s :
  toStartScreen env reshuffle s
  = render (click_toStartScreen env reshuffle s).2
      (click_toStartScreen env reshuffle s).1.
Proof.
  destruct s as [lab nm ws ld em st co wr fk [u q w wc t]].
  unfold toStartScreen, click_toStartScreen. fields.
  destruct (reshuffle && negb (length ws =? 0)%nat); [|done].
  by rewrite !resetDeck_eq.
Qed.

Lemma onStart_rendered fuel s :
  onStart env fuel s
  = '(s1, us) ← click_onStart env fuel s; Some (render us s1).
Proof.
  destruct s as [lab nm ws ld em st co wr fk [u q w wc t]].
  unfold onStart, click_onStart. fields.
  destruct (length ws =? 0)%nat; [done|].
  destruct (dealNext _ _ _ _ _ _ _ _) as [[u' q' w' wc' t']|]; done.
Qed.

Lemma onAnswer_rendered fuel b s :
  onAnswer env fuel b s
  = '(s1, us) ← click_onAnswer env fuel b s; Some (render us s1).
Proof.
  destruct s as [lab nm ws ld em st co wr fk [u q w wc t]].
  unfold onAnswer, click_onAnswer. fields.
  destruct st; [|done]. cbn [negb].
  destruct ws as [|w0 ws].
  - destruct fuel as [|fuel]; [done|]. cbn [dealNext]. rewrite decide_True by done.
    by destruct b.
  - destruct (dealNext _ _ _ _ _ _ _ _) as [[u' q' w' wc' t']|]; [|done].
    by destruct b.
Qed.

Lemma chooseDict_rendered net label url s log :
  (chooseDict env net label url s log).1
  = (let '(s1, us) := resume_chooseDict label (Dict.loadDict net url log).2 s in
     let s2 := render (click_chooseDict ++ us) s1 in
     if sets_words (click_chooseDict ++ us)
     then with_refs (words_effect env (words s2) (cards s2)) s2
     else s2).
Proof.
  destruct s as [lab nm ws ld em st co wr fk [u q w wc t]].
  unfold chooseDict, resume_chooseDict.
  destruct (Dict.loadDict net url log) as [log' [e|data]]; [done|].
  cbn [fst snd sets_words existsb app click_chooseDict orb]. fields.
  unfold words_effect. destruct (negb _); [|done]. by rewrite !resetDeck_eq.
Qed.

Lemma run_eq c c' : run env c → c = c' → run env c'.
Proof. by intros ? <-. Qed.

(** The serial runs are runs of the component, taken at the points where
    nothing is queued or pending. *)
Lemma serial_run s : serial env s → run env (Component s [] false []).
Proof.
  induction 1 as [|net label url s log _ IH|fuel s s' _ IH Hs|s _ IH
                 |fuel b s s' _ IH Hs].
  - eapply run_eq; [apply (run_effect env _ (run_mount env) eq_refl)|done].
  - rewrite chooseDict_rendered.
    destruct (resume_chooseDict label (Dict.loadDict net url log).2 s)
      as [s1 us] eqn:Hr.
    pose proof (run_click_chooseDict env _ label url IH) as H1.
    pose proof (run_resume_chooseDict env _ [] label url [] net log s1 us H1
                  eq_refl Hr) as H2.
    pose proof (run_render env _ H2 eq_refl) as H3.
    cbn [seen queued effect loads app] in H3. cbv zeta.
    destruct (sets_words (click_chooseDict ++ us)) eqn:Hsw; [|exact H3].
    exact (run_effect env _ H3 eq_refl).
  - rewrite onStart_rendered in Hs.
    destruct (click_onStart env fuel s) as [[s1 us]|] eqn:Hc; [|done].
    injection Hs as <-.
    pose proof (run_click_onStart env _ fuel s1 us IH Hc) as H1.
    pose proof (run_render env _ H1 eq_refl) as H2.
    cbn [seen queued effect loads app] in H2.
    eapply run_eq; [exact H2|]. f_equal.
    unfold click_onStart in Hc. destruct (length (words s) =? 0)%nat.
    + by injection Hc as <- <-.
    + destruct (dealNext _ _ _ _ _ _ _ _); [|done]. by injection Hc as <- <-.
  - unfold onRestart. rewrite toStartScreen_rendered.
    pose proof (run_click_onRestart env _ IH) as H1.
    exact (run_render env _ H1 eq_refl).
  - rewrite onAnswer_rendered in Hs.
    destruct (click_onAnswer env fuel b s) as [[s1 us]|] eqn:Hc; [|done].
    injection Hs as <-.
    pose proof (run_click_onAnswer env _ fuel b s1 us IH Hc) as H1.
    pose proof (run_render env _ H1 eq_refl) as H2.
    cbn [seen queued effect loads app] in H2.
    eapply run_eq; [exact H2|]. f_equal.
    unfold click_onAnswer in Hc. destruct (negb (started s)).
    + by injection Hc as <- <-.
    + destruct (dealNext _ _ _ _ _ _ _ _); [|done]. injection Hc as <- <-.
      by destruct b, (length (words s) =? 0)%nat.
Qed.

Lemma serial_reachable s : serial env s → reachable env s.
Proof. intros H%serial_run. by eexists. Qed.

End AppFacts.

Lemma serial_s_chosen : App.serial env0 s_chosen.
Proof. apply App.serial_chooseDict, App.serial_initial. Qed.

Lemma onStart_s_chosen : App.onStart env0 2 s_chosen = Some s_playing.
Proof. vm_compute. reflexivity. Qed.

Lemma serial_s_playing : App.serial env0 s_playing.
Proof.
  apply (App.serial_onStart env0 2 s_chosen); [apply serial_s_chosen|].
  apply onStart_s_chosen.
Qed.

Lemma reachable_s_chosen : App.reachable env0 s_chosen.
Proof. apply serial_reachable, serial_s_chosen. Qed.

Lemma reachable_s_playing : App.reachable env0 s_playing.
Proof. apply serial_reachable, serial_s_playing. Qed.

Lemma started_s_playing : App.started s_playing = true.
Proof. reflexivity. Qed.

(** X1. While the game is on, a word is on display: never [null], never
    empty, and a word of a list that [loadDict] returned.  This holds
    whatever is handled between a handler and the rendering that follows
    it. *)
Theorem playing_shows_word (env : nat → clock) (s : App.state) :
  App.reachable env s →
  App.started s = true →
  ∃ w, word (App.cards s) = Str w ∧ w ≠ [] ∧ App.loaded_word w.
Proof.
  intros (_ & _ & Hplay & _)%reachable_rendered_ok Hst.
  by destruct (Hplay Hst) as [? _].
Qed.

Lemma playing_shows_word_witness :
  ∃ w, word (App.cards s_playing) = Str w ∧ w ≠ [].
Proof.
  destruct (playing_shows_word env0 s_playing reachable_s_playing
              started_s_playing) as (w & Hw & Hne & _).
  exists w. split; [exact Hw|exact Hne].
Defined.



(** X3. In every reachable state the handlers return: [onStart] and
    [onAnswer] need no deeper nesting of [dealNext] than two calls. *)
Theorem handlers_return (env : nat → clock) (s : App.state) (fuel : nat)
    (b : bool) :
  App.reachable env s →
  (2 ≤ fuel)%nat →
  is_Some (App.onStart env fuel s) ∧ is_Some (App.onAnswer env fuel b s).
Proof.
  intros (Hl & _)%reachable_rendered_ok Hfuel.
  assert (Hdeal : ∀ salt st,
            is_Some (dealNext env (App.words s) (App.flipKey s) (App.correct s)
                       (App.wrong s) fuel salt st)).
  { intros salt st. by apply dealNext_returns. }
  split.
  - unfold App.onStart. destruct (App.words s) as [|w ws] eqn:Hw; simpl; [done|].
    destruct (Hdeal (Some 1) (resetDeck env (w :: ws) (App.cards s))) as [d ->].
    done.
  - unfold App.onAnswer. destruct (App.started s) eqn:Hst; simpl; [|done].
    destruct (Hdeal None (App.cards s)) as [d ->]. done.
Qed.

Lemma handlers_return_witness :
  is_Some (App.onAnswer env0 2 true s_playing).
Proof.
  apply (handlers_return env0 s_playing 2 true reachable_s_playing (le_n 2)).
Defined.

(** X4. In a serial run, one in which every click and every dictionary
    that arrives is rendered, and the effect run, before the next is
    handled, everything is as new on the start screen: no word on
    display, both counters at zero, an empty used set, and a queue that
    holds the whole word list in some order. *)
Theorem start_screen_is_fresh (env : nat → clock) (s : App.state) :
  App.serial env s →
  App.started s = false →
  word (App.cards s) = Null
  ∧ App.correct s = 0 ∧ App.wrong s = 0
  ∧ used (App.cards s) = ∅
  ∧ queue (App.cards s) ≡ₚ Str <$> App.words s.
Proof.
  intros (_ & _ & _ & _ & _ & Hidle & _)%serial_invariant Hst.
  destruct (Hidle Hst) as (? & ? & ? & ? & ?). done.
Qed.

Lemma start_screen_is_fresh_witness :
  queue (App.cards s_chosen) ≡ₚ [Str w_a; Str w_a; Str w_b].
Proof.
  apply (start_screen_is_fresh env0 s_chosen serial_s_chosen eq_refl).
Defined.

(** X19. In a serial run the game is on a word of the list: the word on
    display is one of the word list, it is in the used set, and the used
    set, which has at least this member, has at most as many as the list
    has distinct words. *)
Theorem serial_shows_word_of_list (env : nat → clock) (s : App.state) :
  App.serial env s →
  App.started s = true →
  ∃ w, word (App.cards s) = Str w
       ∧ w ∈ App.words s ∧ w ≠ []
       ∧ Str w ∈ used (App.cards s)
       ∧ (1 ≤ (App.progress s).1 ≤ length (remove_dups (App.words s)))%nat.
Proof.
  intros (Hl & _ & Hu & _ & Hplay & _)%serial_invariant Hst.
  destruct (Hplay Hst) as (_ & (w & Hw & Hin) & _).
  exists w. pose proof (Hu _ Hin) as (w' & [= <-] & Hw')%list_elem_of_fmap.
  split_and!; try done.
  - by apply (proj1 (Forall_forall _ _) (loaded_nonempty _ Hl)).
  - unfold App.progress. cbn [fst].
    assert (size (used (App.cards s)) ≠ 0%nat); [|lia].
    intros E%size_empty_inv. apply (E (Str w)) in Hin.
    by apply elem_of_empty in Hin.
  - unfold App.progress. cbn [fst]. by apply used_size.
Qed.

Lemma serial_shows_word_of_list_witness :
  ∃ w, word (App.cards s_playing) = Str w ∧ w ∈ [w_a; w_a; w_b]
       ∧ (App.progress s_playing).1 = 1%nat.
Proof.
  destruct (serial_shows_word_of_list env0 s_playing serial_s_playing
              started_s_playing) as (w & Hw & Hin & _).
  exists w. split; [exact Hw|]. split; [exact Hin|reflexivity].
Defined.

(** X20. The serial runs are runs of the component: a state that the
    handlers rendered at once lead to is one that the component is in,
    with nothing queued, no effect to run and no dictionary awaited, when
    each click and each dictionary that arrives is followed by its
    rendering and its effect before anything else is handled. *)
Theorem serial_is_run (env : nat → clock) (s : App.state) :
  App.serial env s →
  App.run env (App.Component s [] false []) ∧ App.reachable env s.
Proof.
  intros Hs. split; [by apply serial_run|by apply serial_reachable].
Qed.

Lemma serial_is_run_witness :
  App.run env0 (App.Component s_playing [] false []).
Proof.
  apply (serial_is_run env0 s_playing serial_s_playing).
Defined.

(** Between the arrival of a dictionary and the rendering that shows it,
    a click is handled with the words of the dictionary before.  The
    start button clicked there, the words being a, a, b and the
    dictionary that arrives being c: the game is on with a word that is
    not of the list, and nothing is used. *)
Example start_before_rendering :
  ∃ c, App.run env0 c
    ∧ App.queued c = [] ∧ App.effect c = false
    ∧ App.started (App.seen c) = true
    ∧ App.words (App.seen c) = [w_c]
    ∧ word (App.cards (App.seen c)) = Str w_b
    ∧ used (App.cards (App.seen c)) = ∅.
Proof.
  pose proof (serial_run env0 s_chosen serial_s_chosen) as H0.
  pose proof (App.run_click_chooseDict env0 _ (lit "y") url0 H0) as H1.
  destruct (App.resume_chooseDict (lit "y")
              (Dict.loadDict (always (Dict.Response 200 (inr doc_c))) url0 []).2
              s_chosen) as [s1 us1] eqn:Hr.
  pose proof Hr as Hr'. vm_compute in Hr'. injection Hr' as <- <-.
  pose proof (App.run_resume_chooseDict env0 _ [] (lit "y") url0 [] _ [] _ _
                H1 eq_refl Hr) as H2.
  match type of Hr with _ = (?s1, _) =>
    destruct (App.click_onStart env0 2 s1) as [[s2 us2]|] eqn:Hc
  end.
  2: { vm_compute in Hc. discriminate Hc. }
  pose proof Hc as Hc'. vm_compute in Hc'. injection Hc' as <- <-.
  pose proof (App.run_click_onStart env0 _ 2 _ _ H2 Hc) as H3.
  pose proof (App.run_render env0 _ H3 eq_refl) as H4.
  pose proof (App.run_effect env0 _ H4 eq_refl) as H5.
  eexists. split; [exact H5|].
  split_and!; vm_compute; reflexivity.
Qed.

(** An answer given there, in a game that was started while the
    dictionary was awaited: the start screen is rendered with a word on
    display and a point on the score. *)
Example answer_before_rendering :
  ∃ c, App.run env0 c
    ∧ App.queued c = [] ∧ App.effect c = false
    ∧ App.started (App.seen c) = false
    ∧ App.correct (App.seen c) = 1
    ∧ word (App.cards (App.seen c)) = Str w_b.
Proof.
  pose proof (serial_run env0 s_playing serial_s_playing) as H0.
  pose proof (App.run_click_chooseDict env0 _ (lit "y") url0 H0) as H1.
  destruct (App.resume_chooseDict (lit "y")
              (Dict.loadDict (always (Dict.Response 200 (inr doc_c))) url0 []).2
              s_playing) as [s1 us1] eqn:Hr.
  pose proof Hr as Hr'. vm_compute in Hr'. injection Hr' as <- <-.
  pose proof (App.run_resume_chooseDict env0 _ [] (lit "y") url0 [] _ [] _ _
                H1 eq_refl Hr) as H2.
  match type of Hr with _ = (?s1, _) =>
    destruct (App.click_onAnswer env0 2 true s1) as [[s2 us2]|] eqn:Hc
  end.
  2: { vm_compute in Hc. discriminate Hc. }
  pose proof Hc as Hc'. vm_compute in Hc'. injection Hc' as <- <-.
  pose proof (App.run_click_onAnswer env0 _ 2 true _ _ H2 Hc) as H3.
  pose proof (App.run_render env0 _ H3 eq_refl) as H4.
  pose proof (App.run_effect env0 _ H4 eq_refl) as H5.
  eexists. split; [exact H5|].
  split_and!; vm_compute; reflexivity.
Qed.

(** X5. The colour of the word is never [undefined]: it is the first
    colour or one of the table, and one of the table while the game is
    on. *)
Theorem wordColor_defined (env : nat → clock) (s : App.state) :
  App.reachable env s →
  (∃ c, wordColor (App.cards s) = Str c ∧ (c = lit "#111827" ∨ c ∈ WORD_COLORS))
  ∧ (App.started s = true →
     ∃ c, c ∈ WORD_COLORS ∧ wordColor (App.cards s) = Str c).
Proof.
  intros (_ & _ & Hplay & _ & Hcol)%reachable_rendered_ok.
  split; [done|]. intros Hst. by destruct (Hplay Hst) as (_ & ?).
Qed.

Lemma wordColor_defined_witness :
  ∃ c, c ∈ WORD_COLORS ∧ wordColor (App.cards s_playing) = Str c.
Proof.
  apply (wordColor_defined env0 s_playing reachable_s_playing).
  exact started_s_playing.
Defined.

(** X6. A dictionary is named exactly when there are words: the label is
    [null] when and only when the word list is empty, and the word list is
    empty or one that [loadDict] returned. *)
Theorem label_iff_words (env : nat → clock) (s : App.state) :
  App.reachable env s →
  (App.dictLabel s = None ↔ App.words s = []) ∧ loaded (App.words s).
Proof. by intros (Hl & Hlab & _)%reachable_rendered_ok. Qed.

Lemma label_iff_words_witness :
  App.dictLabel s_chosen = Some (lit "x") ∧ App.words s_chosen = [w_a; w_a; w_b]
  ∧ loaded (App.words s_chosen).
Proof.
  split; [reflexivity|]. split; [reflexivity|].
  apply (label_iff_words env0 s_chosen reachable_s_chosen).
Defined.

(** X7. [chooseDict] ends with [loading] off, and with an error message
    exactly when loading failed: the message of the error, or 加载词库失败
    when that is empty.  A failure changes nothing else: the words, the
    deck, the score and the dictionary named stay.  A success names the
    dictionary, takes its words, and leaves the start screen. *)
Theorem chooseDict_outcome (env : nat → clock) (net : Dict.network)
    (label url : jsstring) (s : App.state) (log : list Dict.event) :
  let r := (App.chooseDict env net label url s log).1 in
  App.loading r = false
  ∧ (App.errMsg r = [] ↔ ∃ d, (Dict.loadDict net url log).2 = inr d)
  ∧ (∀ e, (Dict.loadDict net url log).2 = inl e →
       App.errMsg r
       = (if decide (Dict.message e = []) then App.load_error else Dict.message e)
       ∧ r = App.State (App.dictLabel s) (App.dictName s) (App.words s) false
               (App.errMsg r) (App.started s) (App.correct s) (App.wrong s)
               (App.flipKey s) (App.cards s))
  ∧ (∀ d, (Dict.loadDict net url log).2 = inr d →
       App.dictLabel r = Some label ∧ App.dictName r = Some (Dict.name d)
       ∧ App.words r = Dict.words d ∧ App.started r = false
       ∧ App.flipKey r = App.flipKey s + 1).
Proof.
  unfold App.chooseDict.
  destruct (Dict.loadDict net url log) as [log' [e|d]]; simpl.
  - assert (Hmsg : match Dict.message e with [] => App.load_error | m => m end
                   = if decide (Dict.message e = []) then App.load_error
                     else Dict.message e).
    { by destruct (Dict.message e). }
    split_and!; try done.
    + split; [|by intros [d ?]]. rewrite Hmsg.
      destruct (decide (Dict.message e = [])); [done|]. by intros ?.
    + by intros e' [= <-].
  - split_and!; try done.
    + split; [by exists d|done].
    + by intros d' [= <-].
Qed.

(** X8. The score counts the answers: a run of answers given while the
    game is on, each rendered before the next, is handled to its end; it
    adds the number of right ones to [correct] and of wrong ones to
    [wrong], counts [flipKey] up once per answer, and leaves the game on
    with the same words. *)
Theorem answers_count (env : nat → clock) (fuel : nat) (bs : list bool)
    (s : App.state) :
  loaded (App.words s) →
  App.started s = true →
  (2 ≤ fuel)%nat →
  ∃ s', App.answers env fuel bs s = Some s'
    ∧ App.correct s' = App.correct s + Z.of_nat (length (filter (λ b, b = true) bs))
    ∧ App.wrong s' = App.wrong s + Z.of_nat (length (filter (λ b, b = false) bs))
    ∧ App.flipKey s' = App.flipKey s + Z.of_nat (length bs)
    ∧ App.started s' = true
    ∧ App.words s' = App.words s.
Proof.
  intros Hl Hst Hfuel. revert s Hl Hst.
  induction bs as [|b bs IH]; intros s Hl Hst.
  - exists s. simpl. split_and!; try done; lia.
  - destruct (dealNext_returns env (App.words s) (App.flipKey s) (App.correct s)
                (App.wrong s) fuel None (App.cards s) Hl Hfuel) as [d Hd].
    cbn [App.answers]. unfold App.onAnswer. rewrite Hst, Hd. cbn [negb mbind option_bind].
    match goal with |- context [App.answers env fuel bs ?s1] =>
      destruct (IH s1) as (s' & Hs' & Hc & Hw & Hk & Hs & Hwords); [done..|]
    end.
    exists s'. split; [exact Hs'|].
    cbn [App.correct App.wrong App.flipKey App.started App.words] in *.
    rewrite Hc, Hw, Hk, Hwords, !filter_cons.
    destruct b.
    + rewrite decide_True, decide_False by done. cbn [length].
      rewrite !Nat2Z.inj_succ. split_and!; try done; lia.
    + rewrite decide_False, decide_True by done. cbn [length].
      rewrite !Nat2Z.inj_succ. split_and!; try done; lia.
Qed.

Lemma answers_count_witness :
  ∃ s', App.answers env0 2 [true; false; true] s_playing = Some s'
    ∧ App.correct s' = 2 ∧ App.wrong s' = 1 ∧ App.flipKey s' = 5.
Proof.
  destruct (answers_count env0 2 [true; false; true] s_playing loaded_aab
              started_s_playing (le_n 2)) as (s' & Hs' & Hc & Hw & Hk & _).
  exists s'. split; [exact Hs'|]. split; [exact Hc|]. split; [exact Hw|exact Hk].
Defined.

(** X9. A call of [dealNext] on a loaded list that is not empty either
    deals a word of the queue that was not in the used set, and adds it,
    or starts a new cycle: it shuffles anew, once, and the used set is
    the word it deals alone.  It never deals a word that was used in the
    cycle that goes on. *)
Theorem dealNext_fresh_or_new_cycle (env : nat → clock) (words : list jsstring)
    (flipKey correct wrong : Z) (fuel : nat) (salt : option Z) (st st' : deck) :
  loaded words →
  words ≠ [] →
  dealNext env words flipKey correct wrong fuel salt st = Some st' →
  (tick st' = tick st
   ∧ word st' ∈ queue st ∧ ¬ (word st' ∈ used st)
   ∧ used st' = {[ word st' ]} ∪ used st)
  ∨ (tick st' = S (tick st)
     ∧ word st' ∈ Str <$> words
     ∧ used st' = {[ word st' ]}).
Proof.
  intros Hl Hne Hd.
  destruct (dealNext_cases env words flipKey correct wrong fuel salt st st' Hl Hne Hd)
    as [(c & s & q & Hpop & ->)|(w & q & Hnq & Hw & ->)]; simpl.
  - left. destruct (pop_unused_found _ _ _ _ _ Hpop). done.
  - right. split_and!; try done. apply list_elem_of_fmap. by exists w.
Qed.

Lemma dealNext_fresh_or_new_cycle_witness :
  let words := [w_a; w_a; w_b] in
  let st := resetDeck env0 words deck0 in
  let st' := default deck0 (dealNext env0 words 0 0 0 1 None st) in
  (tick st' = tick st
   ∧ word st' ∈ queue st ∧ ¬ (word st' ∈ used st)
   ∧ used st' = {[ word st' ]} ∪ used st)
  ∨ (tick st' = S (tick st)
     ∧ word st' ∈ Str <$> words
     ∧ used st' = {[ word st' ]}).
Proof.
  intros words st st'.
  assert (H : dealNext env0 words 0 0 0 1 None st = Some st')
    by (vm_compute; reflexivity).
  apply (dealNext_fresh_or_new_cycle env0 words 0 0 0 1 None st st' loaded_aab
           ltac:(discriminate) H).
Defined.

(** ** The generator, the colour and the seed *)

Lemma ToInt32_idem (z : Z) : Int32.ToInt32 (Int32.ToInt32 z) = Int32.ToInt32 z.
Proof.
  unfold Int32.ToInt32.
  replace ((z + 2 ^ 31) mod 2 ^ 32 - 2 ^ 31 + 2 ^ 31) with ((z + 2 ^ 31) mod 2 ^ 32)
    by lia.
  by rewrite Z.mod_mod by lia.
Qed.

Lemma ToInt32_add (a c : Z) :
  Int32.ToInt32 (Int32.ToInt32 a + c) = Int32.ToInt32 (a + c).
Proof.
  unfold Int32.ToInt32. f_equal.
  replace ((a + 2 ^ 31) mod 2 ^ 32 - 2 ^ 31 + c + 2 ^ 31)
    with ((a + 2 ^ 31) mod 2 ^ 32 + c) by lia.
  replace (a + c + 2 ^ 31) with (a + 2 ^ 31 + c) by lia.
  by rewrite Z.add_mod_idemp_l by lia.
Qed.

Lemma or_0 (z : Z) : Int32.or z 0 = Int32.ToInt32 z.
Proof.
  unfold Int32.or. change (Int32.ToInt32 0) with 0.
  by rewrite Z.lor_0_r, ToInt32_idem.
Qed.

(** One call moves the state on by the constant, modulo 2^32. *)
Lemma mulberry32_next_state (a : Z) :
  (mulberry32_next a).2 = Int32.ToInt32 (a + 0x6d2b79f5).
Proof.
  unfold mulberry32_next. cbv zeta. cbn [snd].
  by rewrite !or_0, ToInt32_add.
Qed.

(** A call reads its state as a signed 32-bit integer. *)
Lemma mulberry32_next_ToInt32 (a : Z) :
  mulberry32_next (Int32.ToInt32 a) = mulberry32_next a.
Proof.
  unfold mulberry32_next. cbv zeta.
  by rewrite (or_0 (Int32.ToInt32 a)), (or_0 a), ToInt32_idem.
Qed.

Lemma draws_S {G : Type} (rnd : G → number * G) (n : nat) (g : G) :
  draws rnd (S n) g =
    ((rnd g).1 :: (draws rnd n (rnd g).2).1, (draws rnd n (rnd g).2).2).
Proof. simpl. destruct (rnd g) as [x g1]. simpl. by destruct (draws rnd n g1). Qed.

Lemma draws_mulberry32_ToInt32 (n : nat) (a : Z) :
  (draws mulberry32_next n (Int32.ToInt32 a)).1 = (draws mulberry32_next n a).1.
Proof.
  destruct n as [|n]; [done|].
  by rewrite !draws_S, mulberry32_next_ToInt32.
Qed.

Lemma ToInt32_ToUint32_add (z k : Z) :
  Int32.ToInt32 (Int32.ToUint32 z + k) = Int32.ToInt32 (z + k).
Proof.
  unfold Int32.ToInt32, Int32.ToUint32. f_equal.
  rewrite <- !Z.add_assoc. by rewrite Z.add_mod_idemp_l by lia.
Qed.

Lemma mulberry32_state_after (n : nat) (a : Z) :
  Int32.ToInt32 (draws mulberry32_next n a).2
  = Int32.ToInt32 (a + Z.of_nat n * 0x6d2b79f5).
Proof.
  revert a. induction n as [|n IH]; intros a.
  - simpl. f_equal. lia.
  - rewrite draws_S. cbn [snd]. rewrite IH, mulberry32_next_state, ToInt32_add.
    f_equal. lia.
Qed.

(** X10. The state of the generator is a counter: after [n] calls it is
    the seed plus [n] times [0x6d2b79f5], as a 32-bit integer.  So the
    generator made from [seed], after [n] calls, goes on as a new generator
    made from [seed + n * 0x6d2b79f5] begins. *)
Theorem mulberry32_counter (seed : Z) (n m : nat) :
  Int32.ToInt32 (draws mulberry32_next n (mulberry32 seed)).2
  = Int32.ToInt32 (seed + Z.of_nat n * 0x6d2b79f5)
  ∧ (draws mulberry32_next m (draws mulberry32_next n (mulberry32 seed)).2).1
    = (draws mulberry32_next m (mulberry32 (seed + Z.of_nat n * 0x6d2b79f5))).1.
Proof.
  assert (H : Int32.ToInt32 (draws mulberry32_next n (mulberry32 seed)).2
              = Int32.ToInt32 (seed + Z.of_nat n * 0x6d2b79f5)).
  { by rewrite mulberry32_state_after, mulberry32_ToUint32, ToInt32_ToUint32_add. }
  split; [exact H|].
  rewrite <- (draws_mulberry32_ToInt32 m (draws mulberry32_next n (mulberry32 seed)).2).
  rewrite H, mulberry32_ToUint32.
  rewrite <- (draws_mulberry32_ToInt32 m (Int32.ToUint32 _)).
  f_equal. f_equal.
  rewrite <- (Z.add_0_r (Int32.ToUint32 _)), ToInt32_ToUint32_add. f_equal. lia.
Qed.

Lemma WORD_COLORS_NoDup : NoDup WORD_COLORS.
Proof. apply (bool_decide_unpack _). by vm_compute. Qed.

Lemma pickColor_index (w : jsstring) (salt : Z) :
  0 ≤ salt → hashStringToInt w + salt < 2 ^ 53 →
  ∃ c, WORD_COLORS !! Z.to_nat ((hashStringToInt w + salt) mod 10) = Some c
       ∧ pickColor w salt = Str c.
Proof.
  intros Hsalt Hlt. unfold pickColor.
  assert (Hh : 0 ≤ hashStringToInt w) by apply ushr_0_range.
  rewrite add_int_exact by lia.
  change (Z.of_nat (length WORD_COLORS)) with 10.
  rewrite Z.rem_mod_nonneg by lia.
  pose proof (Z.mod_pos_bound (hashStringToInt w + salt) 10) as Hb.
  destruct (Z.ltb_spec ((hashStringToInt w + salt) mod 10) 0) as [|_]; [lia|].
  destruct (WORD_COLORS !! Z.to_nat ((hashStringToInt w + salt) mod 10))
    as [c|] eqn:E; [by exists c|].
  apply lookup_ge_None in E. change (length WORD_COLORS) with 10%nat in E. lia.
Qed.

(** X11. With a salt that is not negative [pickColor] returns a colour of
    the table.  As long as the sum of the hash and the salt stays below
    2^53, where the addition is exact, ten steps of the salt come back to
    the same colour and one step changes it, so that a word shown again
    after one more flip has another colour. *)
Theorem pickColor_cycles (w : jsstring) (salt : Z) :
  0 ≤ salt →
  (∃ c, c ∈ WORD_COLORS ∧ pickColor w salt = Str c)
  ∧ (hashStringToInt w + salt + 10 < 2 ^ 53 →
     pickColor w (salt + 10) = pickColor w salt)
  ∧ (hashStringToInt w + salt + 1 < 2 ^ 53 →
     pickColor w (salt + 1) ≠ pickColor w salt).
Proof.
  intros Hsalt. split_and!.
  - by apply pickColor_nonneg.
  - intros Hlt.
    destruct (pickColor_index w salt Hsalt ltac:(lia)) as (c & Hc & ->).
    destruct (pickColor_index w (salt + 10) ltac:(lia) ltac:(lia))
      as (c10 & Hc10 & ->).
    replace ((hashStringToInt w + (salt + 10)) mod 10)
      with ((hashStringToInt w + salt) mod 10) in Hc10.
    + congruence.
    + replace (hashStringToInt w + (salt + 10))
        with (hashStringToInt w + salt + 1 * 10) by lia.
      by rewrite Z.mod_add by lia.
  - intros Hlt.
    destruct (pickColor_index w salt Hsalt ltac:(lia)) as (c & Hc & ->).
    destruct (pickColor_index w (salt + 1) ltac:(lia) ltac:(lia))
      as (c1 & Hc1 & ->).
    intros [= ->].
    pose proof (NoDup_lookup _ _ _ _ WORD_COLORS_NoDup Hc1 Hc) as E.
    assert (Hh : 0 ≤ hashStringToInt w) by apply ushr_0_range.
    apply Z2Nat.inj in E; try (apply Z.mod_pos_bound; lia).
    rewrite Z.add_assoc in E.
    pose proof (Z.div_mod (hashStringToInt w + salt) 10 ltac:(lia)).
    pose proof (Z.div_mod (hashStringToInt w + salt + 1) 10 ltac:(lia)).
    pose proof (Z.mod_pos_bound (hashStringToInt w + salt) 10 ltac:(lia)).
    pose proof (Z.mod_pos_bound (hashStringToInt w + salt + 1) 10 ltac:(lia)).
    lia.
Qed.

Lemma pickColor_cycles_witness :
  pickColor w_a 4 = pickColor w_a 14 ∧ pickColor w_a 5 ≠ pickColor w_a 4.
Proof.
  destruct (pickColor_cycles w_a 4 ltac:(lia)) as (_ & H10 & H1).
  split; [symmetry; apply H10|apply H1]; by vm_compute.
Defined.

(** Where the sum passes 2^53 the step is lost: the salts 2^53 - 1 and
    2^53 give the word b one colour, [#F72585]. *)
Example pickColor_rounded :
  pickColor (lit "b") (2 ^ 53 - 1) = Str (lit "#F72585")
  ∧ pickColor (lit "b") (2 ^ 53) = Str (lit "#F72585").
Proof. by vm_compute. Qed.

(** ** shuffle and loadDict once more *)

(** X12. An array with no element or one is copied as it is, and the
    random source is not called, whatever it is. *)
Theorem shuffle_short {V : Type} (undefined : V) {G : Type}
    (rnd : G → number * G) (arr : loc) (g : G) (σ : heap) :
  (length (load σ arr) ≤ 1)%nat →
  shuffle undefined rnd arr g σ = (length σ, g, σ ++ [load σ arr]).
Proof.
  intros Hlen. rewrite shuffle_eq. cbv zeta.
  by replace (length (load σ arr) - 1)%nat with 0%nat by lia.
Qed.

Lemma shuffle_short_witness :
  shuffle 0%nat mulberry32_next 1%nat (mulberry32 42) [[1; 2]; [7]]%nat
  = (2%nat, mulberry32 42, [[1; 2]; [7]; [7]]%nat).
Proof.
  apply (shuffle_short 0%nat mulberry32_next 1%nat (mulberry32 42)
           [[1; 2]; [7]]%nat (le_n 1)).
Defined.

Section DictMore.
Import Dict.

Lemma trimStart_id (s : jsstring) :
  (∀ c, head s = Some c → is_space c = false) → trimStart s = s.
Proof.
  destruct s as [|c s]; [done|]. intros H. simpl. by rewrite (H c eq_refl).
Qed.

Lemma trimmed_trim (s : jsstring) : trimmed s → trim s = s.
Proof.
  intros [Hhd Hlast]. unfold trim, trimEnd. rewrite (trimStart_id s Hhd).
  rewrite trimStart_id; [apply reverse_involutive|].
  intros c. rewrite head_reverse. apply Hlast.
Qed.

Lemma prop_single (key : jsstring) (v : json) :
  prop key (JObject [(key, v)]) = Some v.
Proof.
  unfold prop. rewrite filter_cons. simpl. by rewrite decide_True.
Qed.

Lemma prop_single_ne (key key' : jsstring) (v : json) :
  key' ≠ key → prop key (JObject [(key', v)]) = None.
Proof.
  intros H. unfold prop. rewrite filter_cons. simpl. by rewrite decide_False.
Qed.

Lemma cleaned_id (ws : list jsstring) :
  Forall (λ w, w ≠ [] ∧ trimmed w) ws →
  filter (λ w, (0 < length w)%nat) (trim <$> ws) = ws.
Proof.
  induction 1 as [|w ws [Hne Ht] _ IH]; [done|].
  rewrite !fmap_cons, filter_cons. rewrite (trimmed_trim w Ht).
  rewrite decide_True by (destruct w; [done|simpl; lia]).
  f_equal. exact IH.
Qed.

End DictMore.

(** X13. [loadDict] returns a dictionary exactly when the response has a
    success status, its body is a JSON document whose [words] field is an
    array, [String] converts every entry of the array, and some entry is
    left after the cleaning; the dictionary then has the cleaned entries
    as words and the [name] of the document when that is a string, 词库
    otherwise. *)
Theorem loadDict_succeeds_iff (net : Dict.network) (url : jsstring)
    (log : list Dict.event) (d : Dict.dictionary) :
  (Dict.loadDict net url log).2 = inr d ↔
  ∃ res doc entries strings,
    net url = inr res ∧ Dict.ok res = true ∧ Dict.body res = inr doc
    ∧ Dict.prop (lit "words") doc = Some (Dict.JArray entries)
    ∧ Forall2 (λ e t, ∃ s, Dict.String_ e = inr s ∧ t = Dict.trim s)
        entries strings
    ∧ filter (λ w, (0 < length w)%nat) strings ≠ []
    ∧ d = Dict.Dictionary
            (match Dict.prop (lit "name") doc with
             | Some (Dict.JString s) => s
             | _ => Dict.default_name
             end)
            (filter (λ w, (0 < length w)%nat) strings).
Proof.
  split.
  - intros Hd.
    destruct (net url) as [m|res] eqn:Hnet.
    { unfold Dict.loadDict, Dict.fetch, Dict.bind, Dict.emit, Dict.throw in Hd.
      by rewrite Hnet in Hd. }
    destruct (Dict.ok res) eqn:Hok.
    2: { by rewrite (loadDict_not_ok net url log res Hnet Hok) in Hd. }
    destruct (Dict.body res) as [m|doc] eqn:Hbody.
    { unfold Dict.loadDict, Dict.fetch, Dict.res_json, Dict.bind, Dict.emit,
        Dict.ret, Dict.throw in Hd.
      by rewrite Hnet, Hok, Hbody in Hd. }
    rewrite (loadDict_ok net url log res doc Hnet Hok Hbody) in Hd.
    cbv zeta in Hd. simpl in Hd.
    destruct (Dict.map_String_trim _) as [x|strings] eqn:Hs in Hd; [done|].
    destruct (decide _) as [|Hlen] in Hd; [done|]. injection Hd as <-.
    destruct (Dict.prop (lit "words") doc) as [[| | | |entries|]|] eqn:Hw;
      try (injection Hs as <-; done).
    exists res, doc, entries, strings. split_and!; try done.
    + by apply map_String_trim_inr.
    + intros E. by rewrite E in Hlen.
  - intros (res & doc & entries & strings & Hnet & Hok & Hbody & Hw & HF & Hne & ->).
    rewrite (loadDict_ok net url log res doc Hnet Hok Hbody). cbv zeta.
    rewrite Hw. rewrite (map_String_trim_Forall2 entries strings HF).
    simpl. rewrite decide_False; [done|].
    intros E%length_zero_iff_nil. done.
Qed.

(** X14. One call of [loadDict] sends one request and no second one, and
    parses the body only of a response with a success status. *)
Theorem loadDict_events (net : Dict.network) (url : jsstring)
    (log : list Dict.event) :
  (Dict.loadDict net url log).1
  = log ++ Dict.Fetched url
           :: match net url with
              | inr res => if Dict.ok res then [Dict.Parsed] else []
              | inl _ => []
              end.
Proof.
  destruct (net url) as [m|res] eqn:Hnet.
  { unfold Dict.loadDict, Dict.fetch, Dict.bind, Dict.emit, Dict.throw.
    by rewrite Hnet. }
  destruct (Dict.ok res) eqn:Hok.
  2: { by rewrite (loadDict_not_ok net url log res Hnet Hok). }
  destruct (Dict.body res) as [m|doc] eqn:Hbody.
  { unfold Dict.loadDict, Dict.fetch, Dict.res_json, Dict.bind, Dict.emit,
      Dict.ret, Dict.throw.
    rewrite Hnet, Hok, Hbody. simpl. by rewrite <- app_assoc. }
  by rewrite (loadDict_ok net url log res doc Hnet Hok Hbody).
Qed.

(** X15. [loadDict] hands on the errors of [fetch] and of [res.json()] as
    they are: the [TypeError] of a request that failed, and the
    [SyntaxError] of a body that is no JSON, each with its message. *)
Theorem loadDict_passes_errors (net : Dict.network) (url : jsstring)
    (log : list Dict.event) :
  (∀ m, net url = inl m →
     (Dict.loadDict net url log).2 = inl (Dict.TypeError m))
  ∧ (∀ res m, net url = inr res → Dict.ok res = true → Dict.body res = inl m →
       (Dict.loadDict net url log).2 = inl (Dict.SyntaxError m)).
Proof.
  split.
  - intros m Hnet.
    unfold Dict.loadDict, Dict.fetch, Dict.bind, Dict.emit, Dict.throw.
    by rewrite Hnet.
  - intros res m Hnet Hok Hbody.
    unfold Dict.loadDict, Dict.fetch, Dict.res_json, Dict.bind, Dict.emit,
      Dict.ret, Dict.throw.
    by rewrite Hnet, Hok, Hbody.
Qed.

(** X16. The cleaning is done once and for all: a document whose
    [words] are the words that [loadDict] returned loads to the same
    words. *)
Theorem loadDict_again (net : Dict.network) (url url' : jsstring)
    (log log' : list Dict.event) (d : Dict.dictionary) :
  (Dict.loadDict net url log).2 = inr d →
  (Dict.loadDict
     (always (Dict.Response 200
        (inr (Dict.JObject
                [(lit "words", Dict.JArray (Dict.JString <$> Dict.words d))]))))
     url' log').2
  = inr (Dict.Dictionary Dict.default_name (Dict.words d)).
Proof.
  intros Hd.
  destruct (Dict.loadDict net url log) as [log1 r] eqn:E. simpl in Hd. subst r.
  destruct (loadDict_words net url log log1 d E) as [Hne HF].
  rewrite (loadDict_ok _ url' log'
             (Dict.Response 200
                (inr (Dict.JObject
                        [(lit "words", Dict.JArray (Dict.JString <$> Dict.words d))])))
             _ eq_refl eq_refl eq_refl).
  cbv zeta. rewrite prop_single, prop_single_ne by discriminate.
  rewrite map_String_trim_strings, (cleaned_id _ HF). simpl.
  rewrite decide_False; [done|]. by intros ?%length_zero_iff_nil.
Qed.

Lemma loadDict_again_witness :
  (Dict.loadDict
     (always (Dict.Response 200
        (inr (Dict.JObject
                [(lit "words",
                  Dict.JArray (Dict.JString <$> [lit "a b"; lit "null"; lit "7"]))]))))
     url0 []).2
  = inr (Dict.Dictionary Dict.default_name [lit "a b"; lit "null"; lit "7"]).
Proof.
  apply (loadDict_again (always (Dict.Response 200 (inr doc0))) url0 url0 [] []
           (Dict.Dictionary (lit "demo") [lit "a b"; lit "null"; lit "7"])
           eq_refl).
Defined.

(** ** The seed *)

Lemma noise_lt (x : number) :
  is_double x → in_unit_interval x →
  (Math_floor (mul_int x 1000000000) < 1000000000)%N.
Proof.
  intros [Hm _] Hu%in_unit_interval_iff.
  unfold Math_floor, mul_int. cbn [mant scale].
  rewrite N.shiftr_div_pow2. apply N.Div0.div_lt_upper_bound.
  rewrite (N.mul_comm (2 ^ scale x)). apply round53_mul_lt; lia.
Qed.

Lemma ToInt32_small (n : Z) : 0 ≤ n < 2 ^ 31 → Int32.ToInt32 n = n.
Proof. intros H. unfold Int32.ToInt32. rewrite Z.mod_small by lia. lia. Qed.

Lemma ToUint32_ToInt32 (z : Z) : Int32.ToUint32 (Int32.ToInt32 z) = z mod 2 ^ 32.
Proof.
  unfold Int32.ToUint32, Int32.ToInt32.
  rewrite Zminus_mod_idemp_l. f_equal. lia.
Qed.

Lemma xor_ushr_0 (h n : Z) :
  0 ≤ n < 2 ^ 31 →
  Int32.ushr (Int32.xor h n) 0 = Z.lxor (Int32.ToInt32 h) n mod 2 ^ 32.
Proof.
  intros Hn. unfold Int32.ushr, Int32.xor.
  by rewrite Z.shiftr_0_r, ToUint32_ToInt32, (ToInt32_small n Hn).
Qed.

Lemma lxor_mod_inj (h n1 n2 : Z) :
  0 ≤ n1 < 2 ^ 32 → 0 ≤ n2 < 2 ^ 32 →
  Z.lxor h n1 mod 2 ^ 32 = Z.lxor h n2 mod 2 ^ 32 → n1 = n2.
Proof.
  intros H1 H2 E. apply Z.bits_inj'. intros i Hi.
  destruct (Z.lt_ge_cases i 32) as [Hlt|Hge].
  - assert (Hb : Z.testbit (Z.lxor h n1) i = Z.testbit (Z.lxor h n2) i).
    { rewrite <- (Z.mod_pow2_bits_low (Z.lxor h n1) 32 i) by lia.
      rewrite <- (Z.mod_pow2_bits_low (Z.lxor h n2) 32 i) by lia.
      by rewrite E. }
    rewrite !Z.lxor_spec in Hb.
    by destruct (Z.testbit h i), (Z.testbit n1 i), (Z.testbit n2 i).
  - rewrite <- (Z.mod_small n1 (2 ^ 32)), <- (Z.mod_small n2 (2 ^ 32)) by lia.
    by rewrite !Z.mod_pow2_bits_high by lia.
Qed.

(** X17. [computeSeed] returns a 32-bit unsigned integer.  The noise it
    takes from [Math.random()] is below 10^9, and on one date two calls
    return the same seed exactly when their noise is the same: the seed
    keeps all of the noise. *)
Theorem computeSeed_noise (d1 d2 : clock) :
  year d1 = year d2 → month d1 = month d2 → date d1 = date d2 →
  is_double (random d1) ∧ in_unit_interval (random d1) →
  is_double (random d2) ∧ in_unit_interval (random d2) →
  0 ≤ computeSeed d1 < 2 ^ 32
  ∧ (Math_floor (mul_int (random d1) 1000000000) < 1000000000)%N
  ∧ (computeSeed d1 = computeSeed d2
     ↔ Math_floor (mul_int (random d1) 1000000000)
       = Math_floor (mul_int (random d2) 1000000000)).
Proof.
  intros Hy Hm Hd [Hd1 Hu1] [Hd2 Hu2].
  pose proof (noise_lt _ Hd1 Hu1) as Hn1. pose proof (noise_lt _ Hd2 Hu2) as Hn2.
  split; [apply ushr_0_range|]. split; [exact Hn1|].
  unfold computeSeed. cbv zeta. rewrite Hy, Hm, Hd.
  set (h := fnv1a _ _).
  set (n1 := Math_floor (mul_int (random d1) 1000000000)) in *.
  set (n2 := Math_floor (mul_int (random d2) 1000000000)) in *.
  rewrite !xor_ushr_0 by lia. split.
  - intros E%lxor_mod_inj; lia.
  - by intros ->.
Qed.

Lemma computeSeed_noise_witness :
  computeSeed (env0 0) ≠ computeSeed (env0 1).
Proof.
  assert (Hu0 : is_double (random (env0 0)) ∧ in_unit_interval (random (env0 0))).
  { split; [split; simpl; lia|]. apply in_unit_interval_iff. simpl. lia. }
  assert (Hu1 : is_double (random (env0 1)) ∧ in_unit_interval (random (env0 1))).
  { split; [split; simpl; lia|]. apply in_unit_interval_iff. simpl. lia. }
  destruct (computeSeed_noise (env0 0) (env0 1) eq_refl eq_refl eq_refl
              Hu0 Hu1) as (_ & _ & Hiff).
  intros E. apply Hiff in E. vm_compute in E. discriminate E.
Defined.

(** ** The start of a game *)

(** X18. A click on the start button, with a loaded word list that is
    not empty, is handled without a second call of [dealNext] and opens a
    game on a deck shuffled anew: the score is zero, one word is on
    display and it alone is used, and that word with the queue behind it
    is the whole word list in some order. *)
Theorem onStart_first_word (env : nat → clock) (fuel : nat) (s : App.state) :
  loaded (App.words s) →
  App.words s ≠ [] →
  (1 ≤ fuel)%nat →
  ∃ s', App.onStart env fuel s = Some s'
    ∧ App.started s' = true
    ∧ App.correct s' = 0 ∧ App.wrong s' = 0
    ∧ App.flipKey s' = App.flipKey s + 1
    ∧ App.words s' = App.words s
    ∧ used (App.cards s') = {[ word (App.cards s') ]}
    ∧ App.progress s' = (1%nat, length (App.words s))
    ∧ word (App.cards s') :: queue (App.cards s') ≡ₚ Str <$> App.words s
    ∧ tick (App.cards s') = S (tick (App.cards s)).
Proof.
  intros Hl Hne Hfuel. unfold App.onStart.
  destruct (App.words s) as [|w0 ws] eqn:Hw; [done|]. cbn [length Nat.eqb].
  destruct fuel as [|fuel]; [lia|].
  rewrite resetDeck_eq.
  destruct (dealNext_new_queue env (w0 :: ws) (App.flipKey s) (App.correct s)
              (App.wrong s) fuel (Some 1)
              (Deck ∅ (new_queue env (w0 :: ws) (tick (App.cards s)))
                 (word (App.cards s)) (wordColor (App.cards s))
                 (S (tick (App.cards s))))
              (tick (App.cards s)) Hne (loaded_nonempty _ Hl) eq_refl eq_refl)
    as (w & q & Hnq & _ & _ & Hd).
  match goal with |- ∃ s', ?m ≫= _ = _ ∧ _ => destruct m as [d|] eqn:Hd0 end.
  2: { pose proof (eq_trans (eq_sym Hd0) Hd) as E. discriminate E. }
  pose proof (eq_trans (eq_sym Hd0) Hd) as E. injection E as ->.
  cbn [mbind option_bind]. eexists. split; [reflexivity|].
  unfold App.progress.
  cbn [App.cards App.started App.correct App.wrong App.flipKey App.words
       used word queue tick fst snd].
  split_and!; try done.
  - by rewrite size_singleton.
  - rewrite <- Hnq. apply new_queue_perm.
Qed.

Lemma onStart_first_word_witness :
  ∃ s', App.onStart env0 1 s_chosen = Some s'
    ∧ App.progress s' = (1%nat, 3%nat)
    ∧ word (App.cards s') :: queue (App.cards s')
      ≡ₚ [Str w_a; Str w_a; Str w_b].
Proof.
  destruct (onStart_first_word env0 1 s_chosen loaded_aab
              ltac:(discriminate) (le_n 1))
    as (s' & Hs' & _ & _ & _ & _ & _ & _ & Hp & Hq & _).
  exists s'. split; [exact Hs'|]. split; [exact Hp|exact Hq].
Defined.
